(** * The VQE tutorial notebook (fall2019/07vqe/VQE-tutorial-fall2019.ipynb)

    A shallow embedding of the executable cells of the notebook:
    [VQE_circuit], [expectation], [cost], [obj], the [minimize] call and the
    sweep over bond lengths, together with the properties of these functions.

    Modelling conventions.
    - Python objects that are mutated in place (qiskit circuits) live in a
      store; a circuit variable is a location in that store, so that
      [circuit.copy()] and the later [temp.h(...)], [temp.measure(...)] act on
      an object distinct from the caller's.
    - A function of the notebook is a state transformer that either returns a
      value or raises an exception.
    - The simulator backend and [scipy.optimize.minimize] are external; they
      are Variables of the development.  The backend may fail; every call
      of [qis.execute] is recorded in the state.  The minimizer can only
      call its objective and compute: it is a strategy that, from the values
      the objective has returned so far, evaluates the objective at a further
      point, finishes with a result or fails.
    - A Python float is a double: a finite float is the rational it denotes
      ([Q], in lowest terms), and every operation rounds its exact result to
      the nearest double, ties to even ([round64]), with the infinities and
      NaN where IEEE 754 gives them.  The two zeros are identified (they
      compare equal in Python).  Integers are [Z].
    - Strings are sequences of ASCII characters. *)

From Stdlib Require Import ZArith QArith Qabs Lia String Ascii.
From Stdlib Require Qcanon.
From stdpp Require Import base option list strings.

Local Open Scope nat_scope.

(** ** Python values and exceptions *)

Inductive pyval :=
  | PyNone
  | PyInt (z : Z)
  | PyFloat (q : Q)             (* a finite float *)
  | PyInf (negative : bool)     (* [float("inf")], [float("-inf")] *)
  | PyNaN
  | PyStr (s : string).

(** Numeric reading of a value ([1] and [1.0] denote the same number). *)
Definition num_of (v : pyval) : option Q :=
  match v with
  | PyInt z => Some (inject_Z z)
  | PyFloat q => Some q
  | _ => None
  end.

(** The [ValueError]s raised by the notebook, by message. *)
Inductive value_error :=
  | OneQuantumRegister
      (* "Circuit should have only one quantum register." *)
  | OneClassicalRegister
      (* "Circuit should have only one classical register." *)
  | OperatorCount (nqubits len : nat)
      (* "Circuit has {nqubits} qubits but pauli_string has {len} operators." *)
  | InvalidPauliKey (pauli : ascii)
      (* "{pauli} is an invalid Pauli string key. Should be I, X, Y, or Z." *)
  | WeightsPaulisLength.
      (* "Args weights and paulis must have the same length." *)

Inductive exn :=
  | ValueError (e : value_error)
  | IndexError            (* sequence or register index out of range *)
  | ZeroDivisionError
  | OverflowError         (* "int too large to convert to float" *)
  | TypeError
  | BackendError          (* [qis.execute] or the backend rejects the job *)
  | NoSuchObject.         (* a location that denotes no object of the store *)

Inductive result (A : Type) :=
  | Ok (a : A)
  | Raise (e : exn).
Arguments Ok {A} a.
Arguments Raise {A} e.

(** ** Circuits *)

Record Register := { reg_name : string; reg_size : nat }.

(** A qubit or a classical bit: a register and an index into it. *)
Record Bit := { bit_reg : Register; bit_index : nat }.

(** Rotation angles: [np.pi * k] or a plain number of radians. *)
Inductive angle :=
  | PiTimes (k : Q)
  | Rad (t : Q).

Inductive Instruction :=
  | XGate (q : Bit)
  | RXGate (a : angle) (q : Bit)
  | RYGate (a : angle) (q : Bit)
  | RZGate (a : angle) (q : Bit)
  | CnotGate (ctl tgt : Bit)
  | HGate (q : Bit)
  | SGate (q : Bit)
  | Measure (q : Bit) (c : Bit).

Record QuantumCircuit := {
  qregs : list Register;
  cregs : list Register;
  data : list Instruction
}.

Definition loc := nat.

(** What the backend returns: [counts.items()], bitstring and occurrences. *)
Definition Counts := list (string * Z).

Record state := {
  heap : list QuantumCircuit;          (* the circuit objects, by location *)
  jobs : list (QuantumCircuit * Z);    (* circuits submitted to the backend *)
  stdout : list (list pyval)           (* one entry per [print] call *)
}.

Definition empty_state : state := {| heap := []; jobs := []; stdout := [] |}.

(** ** The monad of notebook code *)

Definition M (A : Type) : Type := state -> result A * state.

Definition ret {A} (a : A) : M A := fun st => (Ok a, st).

Definition raise {A} (e : exn) : M A := fun st => (Raise e, st).

(** A computation that does not touch the state. *)
Definition lift {A} (r : result A) : M A := fun st => (r, st).

Definition bind {A B} (m : M A) (k : A -> M B) : M B :=
  fun st =>
    match m st with
    | (Ok a, st') => k a st'
    | (Raise e, st') => (Raise e, st')
    end.

Declare Scope py_scope.
Delimit Scope py_scope with py.
Notation "x <- m ;; k" := (bind m (fun x => k))
  (at level 100, m at next level, right associativity) : py_scope.
Notation "m ;; k" := (bind m (fun _ => k))
  (at level 100, right associativity) : py_scope.
Local Open Scope py_scope.

(** [print(args)] *)
Definition print (args : list pyval) : M unit :=
  fun st => (Ok tt, {| heap := heap st; jobs := jobs st;
                       stdout := stdout st ++ [args] |}).

(** [seq[i]] on a Python sequence. *)
Definition getitem {A} (l : list A) (i : nat) : M A :=
  match l !! i with
  | Some a => ret a
  | None => raise IndexError
  end.

(** [reg[i]] on a register: the [i]-th bit, or an index error. *)
Definition reg_getitem (r : Register) (i : nat) : M Bit :=
  if i <? reg_size r then ret {| bit_reg := r; bit_index := i |}
  else raise IndexError.

(** Reading the object at a location. *)
Definition deref (c : loc) : M QuantumCircuit :=
  fun st =>
    match heap st !! c with
    | Some circ => (Ok circ, st)
    | None => (Raise NoSuchObject, st)
    end.

(** Creating a new object: it gets the next free location. *)
Definition alloc (circ : QuantumCircuit) : M loc :=
  fun st => (Ok (length (heap st)),
             {| heap := heap st ++ [circ]; jobs := jobs st;
                stdout := stdout st |}).

(** [qis.QuantumCircuit(qreg, creg)] *)
Definition new_circuit (qreg creg : Register) : M loc :=
  alloc {| qregs := [qreg]; cregs := [creg]; data := [] |}.

(** [circuit.copy()]: a deep copy, a new object with the same contents. *)
Definition circuit_copy (c : loc) : M loc :=
  circ <- deref c ;; alloc circ.

(** Appending an instruction to the circuit object at [c], in place. *)
Definition append (c : loc) (i : Instruction) : M unit :=
  fun st =>
    match heap st !! c with
    | Some circ =>
        (Ok tt,
         {| heap := <[c := {| qregs := qregs circ; cregs := cregs circ;
                              data := data circ ++ [i] |}]> (heap st);
            jobs := jobs st; stdout := stdout st |})
    | None => (Raise NoSuchObject, st)
    end.

Definition circ_x (c : loc) (q : Bit) : M unit := append c (XGate q).
Definition circ_rx (c : loc) (a : angle) (q : Bit) : M unit := append c (RXGate a q).
Definition circ_ry (c : loc) (a : angle) (q : Bit) : M unit := append c (RYGate a q).
Definition circ_rz (c : loc) (a : angle) (q : Bit) : M unit := append c (RZGate a q).
Definition circ_cx (c : loc) (ctl tgt : Bit) : M unit := append c (CnotGate ctl tgt).
Definition circ_h (c : loc) (q : Bit) : M unit := append c (HGate q).
Definition circ_s (c : loc) (q : Bit) : M unit := append c (SGate q).
Definition circ_measure (c : loc) (q cb : Bit) : M unit := append c (Measure q cb).

(** ** Python string methods used by the notebook *)

Definition is_lower (c : ascii) : bool :=
  (97 <=? nat_of_ascii c) && (nat_of_ascii c <=? 122).

Definition upper_char (c : ascii) : ascii :=
  if is_lower c then ascii_of_nat (nat_of_ascii c - 32) else c.

(** The ASCII characters for which [str.isspace] holds. *)
Definition is_space (c : ascii) : bool :=
  ((9 <=? nat_of_ascii c) && (nat_of_ascii c <=? 13))
  || ((28 <=? nat_of_ascii c) && (nat_of_ascii c <=? 32)).

Fixpoint lstrip (l : list ascii) : list ascii :=
  match l with
  | c :: l' => if is_space c then lstrip l' else l
  | [] => []
  end.

(** A list that does not begin with a whitespace character. *)
Definition no_leading_space (l : list ascii) : Prop :=
  forall c, head l = Some c -> is_space c = false.

(** [s.upper()] *)
Definition str_upper (s : string) : string :=
  string_of_list_ascii (map upper_char (list_ascii_of_string s)).

(** [s.strip()] *)
Definition str_strip (s : string) : string :=
  string_of_list_ascii
    (reverse (lstrip (reverse (lstrip (list_ascii_of_string s))))).

(** [s.count(c)] for a one-character [c]. *)
Definition str_count (c : ascii) (s : string) : nat :=
  length (filter (fun x => x = c) (list_ascii_of_string s)).

(** ["I" * n] *)
Definition str_repeat (c : ascii) (n : nat) : string :=
  string_of_list_ascii (replicate n c).

(** [all(ident)] on a list of integers. *)
Definition py_all (ident : list Z) : bool :=
  forallb (fun x => negb (x =? 0)%Z) ident.

(** ** Python floats

    Doubles have 53 significant bits, exponents of the last place from
    -1074 on, and overflow at [2 ^ 1024]. *)

Local Open Scope Z_scope.

Inductive float64 :=
  | Finite (q : Q)
  | Infinity (negative : bool)
  | NaN.

(** Nearest integer to [a / b], ties to the even one, for [0 <= a], [0 < b]. *)
Definition rne_div (a b : Z) : Z :=
  match 2 * (a mod b) ?= b with
  | Lt => a / b
  | Gt => a / b + 1
  | Eq => if Z.even (a / b) then a / b else a / b + 1
  end.

(** [2 ^ k <= n / d], for positive [n] and [d] and any integer [k]. *)
Definition ge_pow2 (n d k : Z) : bool :=
  if 0 <=? k then d * 2 ^ k <=? n else d <=? n * 2 ^ (- k).

(** [floor (log2 (n / d))] for positive [n] and [d]. *)
Definition ilog2 (n d : Z) : Z :=
  let k := Z.log2 n - Z.log2 d in
  if ge_pow2 n d k then k else k - 1.

(** The exponent of the last place of the doubles around [n / d]. *)
Definition ulp_exponent (n d : Z) : Z := Z.max (ilog2 n d - 52) (-1074).

(** The significand of the double nearest to [n / d]: [n / d] in units of
    [2 ^ e], rounded to the nearest integer, ties to even. *)
Definition significand (n d e : Z) : Z :=
  if 0 <=? e then rne_div n (d * 2 ^ e) else rne_div (n * 2 ^ (- e)) d.

(** [m * 2 ^ e] as a reduced fraction. *)
Definition scale (m e : Z) : Q :=
  if 0 <=? e then inject_Z (m * 2 ^ e) else Qred (m # Z.to_pos (2 ^ (- e))).

(** The double nearest to the positive rational [n / d], or overflow. *)
Definition round_pos (n d : Z) : option Q :=
  let e := ulp_exponent n d in
  let m := significand n d e in
  if (0 <? e) && (2 ^ 1024 <=? m * 2 ^ e) then None else Some (scale m e).

(** Rounding a rational to binary64, round to nearest, ties to even. *)
Definition round64 (q : Q) : float64 :=
  match Qnum q with
  | Z0 => Finite 0
  | Zpos n =>
      match round_pos (Zpos n) (Zpos (Qden q)) with
      | Some r => Finite r
      | None => Infinity false
      end
  | Zneg n =>
      match round_pos (Zpos n) (Zpos (Qden q)) with
      | Some r => Finite (- r)
      | None => Infinity true
      end
  end.

(** [float(z)] for an int [z]: the nearest double, or an overflow error. *)
Definition float_of_int (z : Z) : result Q :=
  match round64 (inject_Z z) with
  | Finite q => Ok q
  | _ => Raise OverflowError
  end.

(** [x + y] on floats. *)
Definition float_add (x y : float64) : float64 :=
  match x, y with
  | NaN, _ | _, NaN => NaN
  | Infinity a, Infinity b => if Bool.eqb a b then Infinity a else NaN
  | Infinity a, Finite _ => Infinity a
  | Finite _, Infinity b => Infinity b
  | Finite a, Finite b => round64 (a + b)
  end.

(** [x / y] on floats, for a finite [y] other than zero. *)
Definition float_div (x : float64) (y : Q) : float64 :=
  match x with
  | NaN => NaN
  | Infinity a => Infinity (xorb a (Qnum y <? 0))
  | Finite a => round64 (a / y)
  end.

Definition py_float (x : float64) : pyval :=
  match x with
  | Finite q => PyFloat q
  | Infinity a => PyInf a
  | NaN => PyNaN
  end.

(** [val / shots], with [val] a float and [shots] an int: the int is
    converted to a float first. *)
Definition truediv (val : float64) (shots : Z) : result pyval :=
  match float_of_int shots with
  | Raise e => Raise e
  | Ok d =>
      if Qnum d =? 0 then Raise ZeroDivisionError
      else Ok (py_float (float_div val d))
  end.

Local Close Scope Z_scope.

(** ** The cells of the notebook *)

Definition default_shots : Z := 10000.

(** [sign = (-1) ** bitstring.count("0")] *)
Definition sign (bitstring : string) : Z :=
  ((-1) ^ Z.of_nat (str_count "0" bitstring))%Z.

(** What [minimize] returns: [opt.fun] and [opt.x]. *)
Record OptimizeResult := { opt_fun : pyval; opt_x : list Q }.

(** One round of the post-processing loop, [val += sign * count]: the
    product is an int, converted to a float to be added to [val]. *)
Definition postprocess_step (val : result float64) (bc : string * Z)
    : result float64 :=
  match val with
  | Raise e => Raise e
  | Ok v =>
      match float_of_int (sign (fst bc) * snd bc) with
      | Raise e => Raise e
      | Ok t => Ok (float_add v (Finite t))
      end
  end.

(** The post-processing loop of [expectation]: [val = 0.0] and
    [for bitstring, count in counts.items(): val += sign * count]. *)
Definition postprocess (counts : Counts) : result float64 :=
  fold_left postprocess_step counts (Ok (Finite 0)).

(** The post-processing and the last line, [return val / shots]. *)
Definition estimate (counts : Counts) (shots : Z) : result pyval :=
  match postprocess counts with
  | Raise e => Raise e
  | Ok val => truediv val shots
  end.

(** What a minimizer does next: finish with a result, fail, or evaluate its
    objective at [theta] and go on from the value it gets. *)
Inductive strategy :=
  | Finish (opt : OptimizeResult)
  | Abort (e : exn)
  | Evaluate (theta : Q) (next : pyval -> strategy).

(** Running a strategy on an objective; an exception of the objective
    ends the minimization. *)
Fixpoint run_minimizer (s : strategy) (f : Q -> M pyval)
    : M OptimizeResult :=
  match s with
  | Finish opt => ret opt
  | Abort e => raise e
  | Evaluate theta next => v <- f theta ;; run_minimizer (next v) f
  end.

(** ** The globals of the sweep cell

    The sweep cell works on the state of the session and on the global list
    [energies],
    which it rebinds once and then extends in place. *)

Record notebook := { nb_state : state; energies : list pyval }.

Definition Cell (A : Type) : Type := notebook -> result A * notebook.

Definition cell_ret {A} (a : A) : Cell A := fun g => (Ok a, g).

Definition cell_bind {A B} (m : Cell A) (k : A -> Cell B) : Cell B :=
  fun g =>
    match m g with
    | (Ok a, g') => k a g'
    | (Raise e, g') => (Raise e, g')
    end.

Declare Scope cell_scope.
Delimit Scope cell_scope with cell.
Notation "x <- m ;; k" := (cell_bind m (fun x => k))
  (at level 100, m at next level, right associativity) : cell_scope.
Notation "m ;; k" := (cell_bind m (fun _ => k))
  (at level 100, right associativity) : cell_scope.

(** Code that uses the session only. *)
Definition in_session {A} (m : M A) : Cell A :=
  fun g =>
    (fst (m (nb_state g)),
     {| nb_state := snd (m (nb_state g)); energies := energies g |}).

(** [energies = l] *)
Definition energies_assign (l : list pyval) : Cell unit :=
  fun g => (Ok tt, {| nb_state := nb_state g; energies := l |}).

(** [energies.append(v)] *)
Definition energies_append (v : pyval) : Cell unit :=
  fun g => (Ok tt, {| nb_state := nb_state g; energies := energies g ++ [v] |}).

Section Notebook.

(** The simulator: the counts it returns for the [n]-th job of the session,
    a circuit and a number of shots, or nothing when the job fails. *)
Variable backend : nat -> QuantumCircuit -> Z -> option Counts.

(** The strategy of [scipy.optimize.minimize] for an initial guess and a
    method. *)
Variable minimizer : list Q -> string -> strategy.

(** [minimize(fun, x0=..., method=...)] *)
Definition minimize (f : Q -> M pyval) (x0 : list Q) (method : string)
    : M OptimizeResult :=
  run_minimizer (minimizer x0 method) f.

(** The globals [weights] and [H2_paulis], left for the reader to define. *)
Variable weights : list Q.
Variable H2_paulis : list string.

(** [qis.execute(temp, backend, shots=shots)] followed by
    [job.result().get_counts()]: the call is recorded, then the counts are
    returned or the failure of the backend is raised. *)
Definition execute (temp : loc) (shots : Z) : M Counts :=
  circ <- deref temp ;;
  fun st =>
    (match backend (length (jobs st)) circ shots with
     | Some counts => Ok counts
     | None => Raise BackendError
     end,
     {| heap := heap st; jobs := jobs st ++ [(circ, shots)];
        stdout := stdout st |}).

(** [VQE_circuit(theta)].  The two anonymous registers carry the names
    qiskit shows in the printed circuit of the notebook. *)
Definition VQE_circuit (theta : Q) : M loc :=
  let qreg := {| reg_name := "q0"; reg_size := 2 |} in
  let creg := {| reg_name := "c0"; reg_size := 2 |} in
  circ <- new_circuit qreg creg ;;
  q0 <- reg_getitem qreg 0 ;;        (* [circ.x(0)]: qubit 0 of the circuit *)
  circ_x circ q0 ;;
  q0 <- reg_getitem qreg 0 ;;
  circ_rx circ (PiTimes (- (1 # 2))) q0 ;;
  q1 <- reg_getitem qreg 1 ;;
  circ_ry circ (PiTimes (1 # 2)) q1 ;;
  q1 <- reg_getitem qreg 1 ;;
  q0 <- reg_getitem qreg 0 ;;
  circ_cx circ q1 q0 ;;
  q0 <- reg_getitem qreg 0 ;;
  circ_rz circ (Rad theta) q0 ;;
  q1 <- reg_getitem qreg 1 ;;
  q0 <- reg_getitem qreg 0 ;;
  circ_cx circ q1 q0 ;;
  q0 <- reg_getitem qreg 0 ;;
  circ_rx circ (PiTimes (1 # 2)) q0 ;;
  q1 <- reg_getitem qreg 1 ;;
  circ_ry circ (PiTimes (- (1 # 2))) q1 ;;
  ret circ.

(** One iteration of [for (qubit, pauli) in enumerate(pauli_string)]. *)
Definition pauli_step (temp : loc) (qreg creg : Register)
    (qubit : nat) (pauli : ascii) (ident : list Z) : M (list Z) :=
  if Ascii.eqb pauli "I" then
    ret (ident ++ [1%Z])
  else if Ascii.eqb pauli "X" then
    let ident := ident ++ [0%Z] in
    q <- reg_getitem qreg qubit ;;
    circ_h temp q ;;
    q <- reg_getitem qreg qubit ;;
    c <- reg_getitem creg qubit ;;
    circ_measure temp q c ;;
    ret ident
  else if Ascii.eqb pauli "Y" then
    let ident := ident ++ [0%Z] in
    q <- reg_getitem qreg qubit ;;
    circ_s temp q ;;
    q <- reg_getitem qreg qubit ;;
    circ_h temp q ;;
    q <- reg_getitem qreg qubit ;;
    c <- reg_getitem creg qubit ;;
    circ_measure temp q c ;;
    ret ident
  else if Ascii.eqb pauli "Z" then
    let ident := ident ++ [0%Z] in
    q <- reg_getitem qreg qubit ;;
    c <- reg_getitem creg qubit ;;
    circ_measure temp q c ;;
    ret ident
  else
    raise (ValueError (InvalidPauliKey pauli)).

Fixpoint pauli_loop (temp : loc) (qreg creg : Register)
    (qubit : nat) (paulis : list ascii) (ident : list Z) : M (list Z) :=
  match paulis with
  | [] => ret ident
  | pauli :: rest =>
      ident <- pauli_step temp qreg creg qubit pauli ident ;;
      pauli_loop temp qreg creg (S qubit) rest ident
  end.

(** [expectation(circuit, pauli_string, shots)] *)
Definition expectation (circuit : loc) (pauli_string : string) (shots : Z)
    : M pyval :=
  temp <- circuit_copy circuit ;;
  let ident := [] in
  circ <- deref circuit ;;
  if negb (length (qregs circ) =? 1) then
    raise (ValueError OneQuantumRegister)
  else if negb (length (cregs circ) =? 1) then
    print [PyStr "# cregs ="; PyInt (Z.of_nat (length (cregs circ)))] ;;
    raise (ValueError OneClassicalRegister)
  else
    qreg <- getitem (qregs circ) 0 ;;
    creg <- getitem (cregs circ) 0 ;;
    let nqubits := reg_size qreg in
    let pauli_string := str_strip (str_upper pauli_string) in
    if negb (String.length pauli_string =? nqubits) then
      raise (ValueError (OperatorCount nqubits (String.length pauli_string)))
    else
      ident <- pauli_loop temp qreg creg 0
                 (list_ascii_of_string pauli_string) ident ;;
      if py_all ident then
        ret (PyInt 1)
      else
        counts <- execute temp shots ;;
        lift (estimate counts shots).

(** The part of [expectation] that follows the three validity checks,
    as a function of its own (used to state lemmas). *)
Definition measure_and_estimate (temp : loc) (qreg creg : Register)
    (pauli_string : string) (shots : Z) : M pyval :=
  ident <- pauli_loop temp qreg creg 0
             (list_ascii_of_string pauli_string) [] ;;
  if py_all ident then ret (PyInt 1)
  else counts <- execute temp shots ;;
       lift (estimate counts shots).

(** [cost(circuit, weights, paulis)]: after the length check the body of
    the function ends, so the call returns [None]. *)
Definition cost (circuit : loc) (weights : list Q) (paulis : list string)
    : M pyval :=
  if negb (length weights =? length paulis) then
    raise (ValueError WeightsPaulisLength)
  else
    ret PyNone.

(** [def obj(theta)] of the single-radius cell. *)
Definition obj (theta : Q) : M pyval :=
  circ <- VQE_circuit 0 ;;
  en <- cost circ weights H2_paulis ;;
  print [PyStr "Current energy:"; en] ;;
  ret en.

(** [result = minimize(obj, x0=[0], method="Powell")] *)
Definition result_cell : M OptimizeResult :=
  minimize obj [0%Q] "Powell".

(** The globals [radii] and [coeffs] of the sweep. *)
Variable radii : list Q.
Variable coeffs : list (list Q).

(** [obj = lambda theta: cost(VQE_circuit(theta), coeffs[r], H2_paulis)];
    [coeffs[r]] is evaluated at each call of the lambda. *)
Definition sweep_obj (r : nat) (theta : Q) : M pyval :=
  circ <- VQE_circuit theta ;;
  row <- getitem coeffs r ;;
  cost circ row H2_paulis.

(** The body of [for r in range(len(radii))]; [energies.append] changes
    the global list in place. *)
Definition sweep_body (r : nat) : Cell unit :=
  (radius <- in_session (getitem radii r) ;;
   in_session
     (print [PyStr "Current bond length:"; PyFloat radius;
             PyStr "Angstroms."]) ;;
   let obj := sweep_obj r in
   opt <- in_session (minimize obj [0%Q] "Powell") ;;
   energies_append (opt_fun opt) ;;
   radius <- in_session (getitem radii r) ;;
   in_session
     (print [PyStr "Energy at r ="; PyFloat radius; PyStr "Angstroms =";
             opt_fun opt; PyStr "Hartree"]))%cell.

Fixpoint sweep_loop (rs : list nat) : Cell unit :=
  match rs with
  | [] => cell_ret tt
  | r :: rs' => (sweep_body r ;; sweep_loop rs')%cell
  end.

(** The sweep cell: [energies = []] and the loop over [range(len(radii))]. *)
Definition sweep : Cell unit :=
  (energies_assign [] ;; sweep_loop (seq 0 (length radii)))%cell.

End Notebook.

(** ** The table of coefficients and its reduction *)

Module H2.

Local Open Scope Q_scope.

(** RADIUS | g0 | g1 | g2 | g3 | g4 | g5 *)
Definition full_table : list (list Q) := [
    [0.2000; 2.8489; 0.5678; (-1.4508); 0.6799; 0.07910; 0.07910];
    [0.2500; 2.1868; 0.5449; (-1.2870); 0.6719; 0.07980; 0.07980];
    [0.3000; 1.7252; 0.5215; (-1.1458); 0.6631; 0.08060; 0.08060];
    [0.3500; 1.3827; 0.4982; (-1.0226); 0.6537; 0.08150; 0.08150];
    [0.4000; 1.1182; 0.4754; (-0.9145); 0.6438; 0.08250; 0.08250];
    [0.4500; 0.9083; 0.4534; (-0.8194); 0.6336; 0.08350; 0.08350];
    [0.5000; 0.7381; 0.4325; (-0.7355); 0.6233; 0.08460; 0.08460];
    [0.5500; 0.5979; 0.4125; (-0.6612); 0.6129; 0.08580; 0.08580];
    [0.6000; 0.4808; 0.3937; (-0.5950); 0.6025; 0.08700; 0.08700];
    [0.6500; 0.3819; 0.3760; (-0.5358); 0.5921; 0.08830; 0.08830];
    [0.7000; 0.2976; 0.3593; (-0.4826); 0.5818; 0.08960; 0.08960];
    [0.7500; 0.2252; 0.3435; (-0.4347); 0.5716; 0.09100; 0.09100];
    [0.8000; 0.1626; 0.3288; (-0.3915); 0.5616; 0.09250; 0.09250];
    [0.8500; 0.1083; 0.3149; (-0.3523); 0.5518; 0.09390; 0.09390];
    [0.9000; 0.06090; 0.3018; (-0.3168); 0.5421; 0.09540; 0.09540];
    [0.9500; 0.01930; 0.2895; (-0.2845); 0.5327; 0.09700; 0.09700];
    [1.000; (-0.01720); 0.2779; (-0.2550); 0.5235; 0.09860; 0.09860];
    [1.050; (-0.04930); 0.2669; (-0.2282); 0.5146; 0.1002; 0.1002];
    [1.100; (-0.07780); 0.2565; (-0.2036); 0.5059; 0.1018; 0.1018];
    [1.150; (-0.1029); 0.2467; (-0.1810); 0.4974; 0.1034; 0.1034];
    [1.200; (-0.1253); 0.2374; (-0.1603); 0.4892; 0.1050; 0.1050];
    [1.250; (-0.1452); 0.2286; (-0.1413); 0.4812; 0.1067; 0.1067];
    [1.300; (-0.1629); 0.2203; (-0.1238); 0.4735; 0.1083; 0.1083];
    [1.350; (-0.1786); 0.2123; (-0.1077); 0.4660; 0.1100; 0.1100];
    [1.400; (-0.1927); 0.2048; (-0.09290); 0.4588; 0.1116; 0.1116];
    [1.450; (-0.2053); 0.1976; (-0.07920); 0.4518; 0.1133; 0.1133];
    [1.500; (-0.2165); 0.1908; (-0.06660); 0.4451; 0.1149; 0.1149];
    [1.550; (-0.2265); 0.1843; (-0.05490); 0.4386; 0.1165; 0.1165];
    [1.600; (-0.2355); 0.1782; (-0.04420); 0.4323; 0.1181; 0.1181];
    [1.650; (-0.2436); 0.1723; (-0.03420); 0.4262; 0.1196; 0.1196];
    [1.700; (-0.2508); 0.1667; (-0.02510); 0.4204; 0.1211; 0.1211];
    [1.750; (-0.2573); 0.1615; (-0.01660); 0.4148; 0.1226; 0.1226];
    [1.800; (-0.2632); 0.1565; (-0.00880); 0.4094; 0.1241; 0.1241];
    [1.850; (-0.2684); 0.1517; (-0.00150); 0.4042; 0.1256; 0.1256];
    [1.900; (-0.2731); 0.1472; 0.005200; 0.3992; 0.1270; 0.1270];
    [1.950; (-0.2774); 0.1430; 0.01140; 0.3944; 0.1284; 0.1284];
    [2.000; (-0.2812); 0.1390; 0.01710; 0.3898; 0.1297; 0.1297];
    [2.050; (-0.2847); 0.1352; 0.02230; 0.3853; 0.1310; 0.1310];
    [2.100; (-0.2879); 0.1316; 0.02720; 0.3811; 0.1323; 0.1323];
    [2.150; (-0.2908); 0.1282; 0.03170; 0.3769; 0.1335; 0.1335];
    [2.200; (-0.2934); 0.1251; 0.03590; 0.3730; 0.1347; 0.1347];
    [2.250; (-0.2958); 0.1221; 0.03970; 0.3692; 0.1359; 0.1359];
    [2.300; (-0.2980); 0.1193; 0.04320; 0.3655; 0.1370; 0.1370];
    [2.350; (-0.3000); 0.1167; 0.04650; 0.3620; 0.1381; 0.1381];
    [2.400; (-0.3018); 0.1142; 0.04950; 0.3586; 0.1392; 0.1392];
    [2.450; (-0.3035); 0.1119; 0.05230; 0.3553; 0.1402; 0.1402];
    [2.500; (-0.3051); 0.1098; 0.05490; 0.3521; 0.1412; 0.1412];
    [2.550; (-0.3066); 0.1078; 0.05720; 0.3491; 0.1422; 0.1422];
    [2.600; (-0.3079); 0.1059; 0.05940; 0.3461; 0.1432; 0.1432];
    [2.650; (-0.3092); 0.1042; 0.06140; 0.3433; 0.1441; 0.1441];
    [2.700; (-0.3104); 0.1026; 0.06320; 0.3406; 0.1450; 0.1450];
    [2.750; (-0.3115); 0.1011; 0.06490; 0.3379; 0.1458; 0.1458];
    [2.800; (-0.3125); 0.09970; 0.06650; 0.3354; 0.1467; 0.1467];
    [2.850; (-0.3135); 0.09840; 0.06790; 0.3329; 0.1475; 0.1475]
].

Local Close Scope Q_scope.

(** Every [step]-th element of a list, the first one after [skip] more. *)
Fixpoint every {A} (step skip : nat) (l : list A) : list A :=
  match l with
  | [] => []
  | x :: l' =>
      match skip with
      | 0 => x :: every step (step - 1) l'
      | S k => every step k l'
      end
  end.

(** [l[start:stop:step]] for non-negative [start], [stop] and positive
    [step]. *)
Definition slice {A} (start stop step : nat) (l : list A) : list A :=
  every step 0 (drop start (take stop l)).

Definition N : nat := 50.
Definition step : nat := 2.

(** [table = table[0:N:step]] *)
Definition table : list (list Q) := slice 0 N step full_table.

(** [radii = table[:, 0]] *)
Definition radii : list Q := map (fun row => nth 0 row 0%Q) table.

(** [coeffs = table[:, 1:]] *)
Definition coeffs : list (list Q) := map (drop 1) table.

End H2.

(** ** The estimate as the specification words it

    The sign of an outcome is the parity of the measured bits only: the bits
    of the classical register written by a measurement, that is the positions
    of the non-identity symbols.  Classical bit [k] is the [k]-th character
    of the bitstring counted from the right. *)

Definition measured_bits (pauli_string bitstring : string) : list ascii :=
  let bits := reverse (list_ascii_of_string bitstring) in
  omap (fun kp : nat * ascii =>
          if Ascii.eqb (snd kp) "I" then None else bits !! fst kp)
       (imap (fun k p => (k, p)) (list_ascii_of_string pauli_string)).

Definition parity_sign (pauli_string bitstring : string) : Z :=
  ((-1) ^ Z.of_nat
     (length (filter (fun b => b = "1"%char)
                     (measured_bits pauli_string bitstring))))%Z.

Definition parity_estimate (pauli_string : string) (counts : Counts)
    (shots : Z) : Q :=
  Qred (inject_Z
          (fold_left
             (fun val bc => (val + parity_sign pauli_string (fst bc) * snd bc)%Z)
             counts 0%Z)
        / inject_Z shots).

(** Counts a backend may return for [shots] shots. *)
Definition counts_ok (shots : Z) (counts : Counts) : Prop :=
  Forall (fun bc => (0 <= snd bc)%Z) counts
  /\ fold_right Z.add 0%Z (map snd counts) = shots.

(** The symbols of a Pauli string. *)
Definition is_pauli (c : ascii) : bool :=
  Ascii.eqb c "I" || Ascii.eqb c "X" || Ascii.eqb c "Y" || Ascii.eqb c "Z".

(** ** The ansatz as a value

    The circuit object that a call [VQE_circuit(theta)] leaves in the store
    (see [VQE_circuit_runs]). *)

Definition ansatz (theta : Q) : QuantumCircuit :=
  let qreg := {| reg_name := "q0"; reg_size := 2 |} in
  let creg := {| reg_name := "c0"; reg_size := 2 |} in
  let q0 := {| bit_reg := qreg; bit_index := 0 |} in
  let q1 := {| bit_reg := qreg; bit_index := 1 |} in
  {| qregs := [qreg]; cregs := [creg];
     data := [ XGate q0;
               RXGate (PiTimes (- (1 # 2))) q0; RYGate (PiTimes (1 # 2)) q1;
               CnotGate q1 q0; RZGate (Rad theta) q0; CnotGate q1 q0;
               RXGate (PiTimes (1 # 2)) q0; RYGate (PiTimes (- (1 # 2))) q1 ] |}.

(** ** Predicates on computations *)

(** [m] keeps the property [P] of the state, however it ends. *)
Definition preserves {A} (P : state -> Prop) (m : M A) : Prop :=
  forall st, P st -> P (snd (m st)).

(** The store is [h] followed by exactly one more object. *)
Definition one_more (h : list QuantumCircuit) (st : state) : Prop :=
  exists x, heap st = h ++ [x].

(** A strategy that cannot finish as long as the values it gets from its
    objective are not numbers. *)
Fixpoint needs_numbers (s : strategy) : Prop :=
  match s with
  | Finish _ => False
  | Abort _ => True
  | Evaluate _ next => forall v, num_of v = None -> needs_numbers (next v)
  end.

(** The states whose list of backend jobs is [js]. *)
Definition keeps_jobs (js : list (QuantumCircuit * Z)) (st : state) : Prop :=
  jobs st = js.

(** The store is [h] followed by one object that has the registers of
    [circ] and whose instructions start with those of [circ]. *)
Definition copy_of (h : list QuantumCircuit) (circ : QuantumCircuit)
    (st : state) : Prop :=
  exists x, heap st = h ++ [x]
            /\ qregs x = qregs circ /\ cregs x = cregs circ
            /\ data circ `prefix_of` data x.

(** ** The instructions added for a Pauli string

    What the branches of the loop of [expectation] append to the copy for
    the symbol at position [qubit], as a list, and the same for a whole
    string read from position [qubit] on (see [pauli_loop_gates]). *)

Definition pauli_gates (qreg creg : Register) (qubit : nat) (pauli : ascii)
    : list Instruction :=
  let q := {| bit_reg := qreg; bit_index := qubit |} in
  let c := {| bit_reg := creg; bit_index := qubit |} in
  if Ascii.eqb pauli "X" then [HGate q; Measure q c]
  else if Ascii.eqb pauli "Y" then [SGate q; HGate q; Measure q c]
  else if Ascii.eqb pauli "Z" then [Measure q c]
  else [].

Fixpoint measurement_gates (qreg creg : Register) (qubit : nat)
    (paulis : list ascii) : list Instruction :=
  match paulis with
  | [] => []
  | pauli :: rest =>
      pauli_gates qreg creg qubit pauli
      ++ measurement_gates qreg creg (S qubit) rest
  end.

(** ** Sample data *)

Module Samples.

Definition qreg (n : nat) : Register := {| reg_name := "q"; reg_size := n |}.
Definition creg (n : nat) : Register := {| reg_name := "c"; reg_size := n |}.

(** A circuit of [n] qubits and [n] classical bits, without gates. *)
Definition blank (n : nat) : QuantumCircuit :=
  {| qregs := [qreg n]; cregs := [creg n]; data := [] |}.

(** A circuit with two quantum registers of one qubit each. *)
Definition two_qregs : QuantumCircuit :=
  {| qregs := [ {| reg_name := "a"; reg_size := 1 |};
                {| reg_name := "b"; reg_size := 1 |} ];
     cregs := [creg 2]; data := [] |}.

(** A circuit with one quantum register and two classical registers. *)
Definition two_cregs : QuantumCircuit :=
  {| qregs := [qreg 2];
     cregs := [ {| reg_name := "a"; reg_size := 1 |};
                {| reg_name := "b"; reg_size := 1 |} ];
     data := [] |}.

(** Three qubits, but a classical register of two bits only. *)
Definition short_creg : QuantumCircuit :=
  {| qregs := [qreg 3]; cregs := [creg 2]; data := [] |}.

(** A session whose only object is the circuit [circ], at location 0. *)
Definition session (circ : QuantumCircuit) : state :=
  {| heap := [circ]; jobs := []; stdout := [] |}.

(** A backend that reads 0 on every classical bit in every shot, as a
    noiseless simulator does for Z-basis measurements of the state
    prepared by a circuit without gates; it rejects a job without shots. *)
Definition zeros (n : nat) (circ : QuantumCircuit) (shots : Z)
    : option Counts :=
  if (0 <? shots)%Z
  then Some [(str_repeat "0" (sum_list (map reg_size (cregs circ))), shots)]
  else None.

(** A backend that reports two outcomes, each a little more than [2 ^ 53]
    times. *)
Definition huge_shots : Z := 2 ^ 54 + 10.
Definition huge (n : nat) (circ : QuantumCircuit) (shots : Z)
    : option Counts :=
  Some [("00"%string, 2 ^ 53 + 3); ("11"%string, 2 ^ 53 + 7)]%Z.

(** A minimizer that evaluates its objective at the initial guess and
    finishes there, if the value is a number. *)
Definition first_evaluation (x0 : list Q) (method : string) : strategy :=
  Evaluate (nth 0 x0 0%Q)
    (fun v => match num_of v with
              | Some _ => Finish {| opt_fun := v; opt_x := x0 |}
              | None => Abort TypeError
              end).

Definition H2_paulis : list string := ["II"; "ZI"; "IZ"; "ZZ"; "XX"; "YY"].

(** The first two bond lengths of the reduced table. *)
Definition radii : list Q := take 2 H2.radii.
Definition coeffs : list (list Q) := take 2 H2.coeffs.

End Samples.

(** * Properties *)

(** ** The monad *)

Lemma bind_ok {A B} (m : M A) (k : A -> M B) st a st' :
  m st = (Ok a, st') -> bind m k st = k a st'.
Proof. unfold bind. intros ->. reflexivity. Qed.

Lemma bind_raise {A B} (m : M A) (k : A -> M B) st e st' :
  m st = (Raise e, st') -> bind m k st = (Raise e, st').
Proof. unfold bind. intros ->. reflexivity. Qed.

Lemma bind_ret {A B} (a : A) (k : A -> M B) st : bind (ret a) k st = k a st.
Proof. reflexivity. Qed.

Lemma bind_inv_ok {A B} (m : M A) (k : A -> M B) st b st' :
  bind m k st = (Ok b, st') ->
  exists a st1, m st = (Ok a, st1) /\ k a st1 = (Ok b, st').
Proof.
  unfold bind. destruct (m st) as [[a|e] st1]; intros H.
  - exists a, st1. split; [reflexivity | exact H].
  - discriminate H.
Qed.

(** ** Strings *)

Lemma length_string_of_list_ascii (l : list ascii) :
  String.length (string_of_list_ascii l) = length l.
Proof. induction l as [|c l IH]; simpl; [reflexivity | now rewrite IH]. Qed.

Lemma lstrip_no_space (l : list ascii) :
  Forall (fun c => is_space c = false) l -> lstrip l = l.
Proof. destruct 1 as [|c l Hc _]; simpl; [reflexivity | now rewrite Hc]. Qed.

Lemma str_strip_repeat_I (n : nat) :
  str_strip (str_upper (str_repeat "I" n)) = str_repeat "I" n.
Proof.
  unfold str_strip, str_upper, str_repeat.
  rewrite !list_ascii_of_string_of_list_ascii.
  assert (Hup : map upper_char (replicate n "I"%char) = replicate n "I"%char).
  { induction n as [|n IH]; simpl; [reflexivity | now rewrite IH]. }
  assert (Hsp : Forall (fun c => is_space c = false) (replicate n "I"%char)).
  { apply Forall_replicate. reflexivity. }
  rewrite Hup, (lstrip_no_space _ Hsp), reverse_replicate.
  now rewrite (lstrip_no_space _ Hsp), reverse_replicate.
Qed.

(** ** Floats

    What is used of the rounding: integers up to [2 ^ 53] are doubles, and
    a quotient of absolute value at most one rounds into [[-1, 1]]. *)

Section Rounding.

Local Open Scope Z_scope.

Lemma rne_div_exact (a b : Z) : 0 < b -> rne_div (a * b) b = a.
Proof.
  intros Hb. unfold rne_div.
  rewrite Z.mod_mul, Z.div_mul by lia.
  destruct (Z.compare_spec (2 * 0) b); lia.
Qed.

Lemma rne_div_le (a b N : Z) : 0 < b -> a <= N * b -> rne_div a b <= N.
Proof.
  intros Hb Ha. unfold rne_div.
  pose proof (Z.div_mod a b ltac:(lia)) as Hdm.
  pose proof (Z.mod_pos_bound a b Hb) as Hr.
  assert (Hq : a / b <= N) by (apply Z.div_le_upper_bound; lia).
  destruct (Z.compare_spec (2 * (a mod b)) b) as [He | Hl | Hg];
    [destruct (Z.even (a / b)) | |]; try lia; nia.
Qed.

Lemma rne_div_nonneg (a b : Z) : 0 <= a -> 0 < b -> 0 <= rne_div a b.
Proof.
  intros Ha Hb. unfold rne_div.
  assert (0 <= a / b) by (apply Z.div_pos; lia).
  destruct (2 * (a mod b) ?= b); [destruct (Z.even (a / b)) | |]; lia.
Qed.

Lemma ilog2_integer (z : Z) : 0 < z -> ilog2 z 1 = Z.log2 z.
Proof.
  intros Hz. unfold ilog2, ge_pow2. change (Z.log2 1) with 0.
  rewrite Z.sub_0_r.
  pose proof (Z.log2_nonneg z) as Hn.
  pose proof (Z.log2_spec z Hz) as [Hlo _].
  destruct (Z.leb_spec 0 (Z.log2 z)); [| lia].
  destruct (Z.leb_spec (1 * 2 ^ Z.log2 z) z); lia.
Qed.

Lemma scale_integer (z e : Z) :
  e < 0 -> scale (z * 2 ^ (- e)) e = inject_Z z.
Proof.
  intros He. unfold scale. destruct (Z.leb_spec 0 e); [lia |].
  assert (Hp : 0 < 2 ^ (- e)) by (apply Z.pow_pos_nonneg; lia).
  rewrite <- (Qcanon.Qred_identity (inject_Z z)) by (simpl; apply Z.gcd_1_r).
  apply Qred_complete. unfold Qeq, inject_Z; simpl.
  rewrite Z2Pos.id by assumption. lia.
Qed.

Lemma round_pos_integer (z : Z) :
  0 < z <= 2 ^ 53 -> round_pos z 1 = Some (inject_Z z).
Proof.
  intros [Hz Hmax]. unfold round_pos, ulp_exponent, significand.
  rewrite (ilog2_integer z Hz).
  pose proof (Z.log2_nonneg z) as Hn.
  assert (Hl : Z.log2 z <= 53).
  { change 53 with (Z.log2 (2 ^ 53)). now apply Z.log2_le_mono. }
  rewrite Z.max_l by lia.
  destruct (Z.leb_spec 0 (Z.log2 z - 52)) as [Hpos | Hneg].
  - assert (Hc : Z.log2 z = 52 \/ Z.log2 z = 53) by lia.
    destruct Hc as [Hc | Hc]; rewrite Hc.
    + change (52 - 52) with 0. change (1 * 2 ^ 0) with 1.
      assert (Hm : rne_div z 1 = z).
      { rewrite <- (Z.mul_1_r z) at 1. apply rne_div_exact. lia. }
      rewrite Hm. cbn [Z.ltb Z.compare andb]. unfold scale.
      cbn [Z.leb Z.compare]. now rewrite Z.pow_0_r, Z.mul_1_r.
    + pose proof (Z.log2_spec z Hz) as [Hlo _]. rewrite Hc in Hlo.
      assert (z = 2 ^ 53) as -> by lia. reflexivity.
  - assert (Hm : rne_div (z * 2 ^ (- (Z.log2 z - 52))) 1
                 = z * 2 ^ (- (Z.log2 z - 52))).
    { rewrite <- (Z.mul_1_r (z * _)) at 1. apply rne_div_exact. lia. }
    rewrite Hm.
    destruct (Z.ltb_spec 0 (Z.log2 z - 52)); [lia |]. cbn [andb].
    now rewrite scale_integer by lia.
Qed.

Lemma round64_integer (z : Z) :
  Z.abs z <= 2 ^ 53 -> round64 (inject_Z z) = Finite (inject_Z z).
Proof.
  intros Hz. unfold round64, inject_Z. cbn [Qnum Qden].
  destruct z as [|p|p].
  - reflexivity.
  - now rewrite (round_pos_integer (Z.pos p)) by lia.
  - now rewrite (round_pos_integer (Z.pos p)) by lia.
Qed.

Lemma ilog2_le_0 (n d : Z) : 0 < n <= d -> ilog2 n d <= 0.
Proof.
  intros [Hn Hd]. unfold ilog2.
  pose proof (Z.log2_le_mono n d Hd).
  destruct (ge_pow2 n d (Z.log2 n - Z.log2 d)); lia.
Qed.

Lemma round_pos_le_one (n d : Z) :
  0 < n <= d ->
  exists r, round_pos n d = Some r /\ (0 <= r)%Q /\ (r <= 1)%Q.
Proof.
  intros Hnd. unfold round_pos, ulp_exponent, significand, scale.
  pose proof (ilog2_le_0 n d Hnd) as Hl.
  set (e := Z.max (ilog2 n d - 52) (-1074)).
  assert (He : e < 0) by (unfold e; lia).
  destruct (Z.leb_spec 0 e); [lia |].
  destruct (Z.ltb_spec 0 e); [lia |]. cbn [andb].
  assert (Hp : 0 < 2 ^ (- e)) by (apply Z.pow_pos_nonneg; lia).
  eexists. split; [reflexivity |].
  rewrite !Qred_correct. unfold Qle; simpl.
  rewrite Z2Pos.id by assumption.
  pose proof (rne_div_nonneg (n * 2 ^ (- e)) d ltac:(nia) ltac:(lia)).
  pose proof (rne_div_le (n * 2 ^ (- e)) d (2 ^ (- e)) ltac:(lia) ltac:(nia)).
  lia.
Qed.

Lemma round64_le_one (q : Q) :
  Z.abs (Qnum q) <= Z.pos (Qden q) ->
  exists r, round64 q = Finite r /\ (-1 <= r)%Q /\ (r <= 1)%Q.
Proof.
  intros Hq. unfold round64. destruct (Qnum q) as [|n|n] eqn:Hn.
  - exists 0%Q. repeat split; discriminate.
  - destruct (round_pos_le_one (Z.pos n) (Z.pos (Qden q)) ltac:(lia))
      as (r & -> & Hlo & Hhi).
    exists r. repeat split; [| assumption].
    apply Qle_trans with 0%Q; [discriminate | assumption].
  - destruct (round_pos_le_one (Z.pos n) (Z.pos (Qden q)) ltac:(lia))
      as (r & -> & Hlo & Hhi).
    exists (- r)%Q. repeat split.
    + now apply Qopp_le_compat in Hhi.
    + apply Qle_trans with 0%Q; [| discriminate].
      now apply Qopp_le_compat in Hlo.
Qed.

Lemma float_of_int_exact (z : Z) :
  Z.abs z <= 2 ^ 53 -> float_of_int z = Ok (inject_Z z).
Proof. intros H. unfold float_of_int. now rewrite round64_integer. Qed.

Lemma float_add_exact (a b : Z) :
  Z.abs (a + b) <= 2 ^ 53 ->
  float_add (Finite (inject_Z a)) (Finite (inject_Z b))
  = Finite (inject_Z (a + b)).
Proof.
  intros H. unfold float_add.
  change (inject_Z a + inject_Z b)%Q with ((a * 1 + b * 1) # 1).
  rewrite !Z.mul_1_r. now apply round64_integer.
Qed.

End Rounding.

(** ** The store *)

Lemma append_at_end (h : list QuantumCircuit) x i js out :
  append (length h) i {| heap := h ++ [x]; jobs := js; stdout := out |}
  = (Ok tt,
     {| heap := h ++ [ {| qregs := qregs x; cregs := cregs x;
                          data := data x ++ [i] |} ];
        jobs := js; stdout := out |}).
Proof.
  unfold append; simpl.
  rewrite list_lookup_middle by reflexivity.
  rewrite insert_app_r_alt by reflexivity.
  now rewrite Nat.sub_diag.
Qed.

Lemma circuit_copy_ok st (c : loc) circ :
  heap st !! c = Some circ ->
  circuit_copy c st
  = (Ok (length (heap st)),
     {| heap := heap st ++ [circ]; jobs := jobs st; stdout := stdout st |}).
Proof. intros H. unfold circuit_copy, bind, deref, alloc. now rewrite H. Qed.

Lemma circuit_copy_fail st (c : loc) :
  heap st !! c = None -> circuit_copy c st = (Raise NoSuchObject, st).
Proof. intros H. unfold circuit_copy, bind, deref. now rewrite H. Qed.

Lemma deref_after_alloc (h : list QuantumCircuit) x js out (c : loc) circ :
  h !! c = Some circ ->
  deref c {| heap := h ++ [x]; jobs := js; stdout := out |}
  = (Ok circ, {| heap := h ++ [x]; jobs := js; stdout := out |}).
Proof.
  intros H. unfold deref; simpl.
  now rewrite (lookup_app_l_Some _ _ _ _ H).
Qed.

Section Properties.

Variable backend : nat -> QuantumCircuit -> Z -> option Counts.

Lemma expectation_checked st (c : loc) circ q cr pauli shots :
  heap st !! c = Some circ ->
  qregs circ = [q] -> cregs circ = [cr] ->
  String.length (str_strip (str_upper pauli)) = reg_size q ->
  expectation backend c pauli shots st
  = measure_and_estimate backend (length (heap st)) q cr
      (str_strip (str_upper pauli)) shots
      {| heap := heap st ++ [circ]; jobs := jobs st; stdout := stdout st |}.
Proof.
  intros Hc Hq Hcr Hlen. unfold expectation.
  rewrite (bind_ok _ _ _ _ _ (circuit_copy_ok _ _ _ Hc)).
  rewrite (bind_ok _ _ _ _ _ (deref_after_alloc _ _ _ _ _ _ Hc)).
  rewrite Hq, Hcr. cbn [length Nat.eqb negb getitem lookup list_lookup].
  rewrite !bind_ret. rewrite Hlen, Nat.eqb_refl. reflexivity.
Qed.

Lemma expectation_length_mismatch st (c : loc) circ q cr pauli shots :
  heap st !! c = Some circ ->
  qregs circ = [q] -> cregs circ = [cr] ->
  String.length (str_strip (str_upper pauli)) <> reg_size q ->
  expectation backend c pauli shots st
  = (Raise (ValueError (OperatorCount (reg_size q)
                          (String.length (str_strip (str_upper pauli))))),
     {| heap := heap st ++ [circ]; jobs := jobs st; stdout := stdout st |}).
Proof.
  intros Hc Hq Hcr Hlen. unfold expectation.
  rewrite (bind_ok _ _ _ _ _ (circuit_copy_ok _ _ _ Hc)).
  rewrite (bind_ok _ _ _ _ _ (deref_after_alloc _ _ _ _ _ _ Hc)).
  rewrite Hq, Hcr. cbn [length Nat.eqb negb getitem lookup list_lookup].
  rewrite !bind_ret.
  apply Nat.eqb_neq in Hlen. rewrite Hlen. reflexivity.
Qed.

(** *** The loop over the Pauli string *)

Lemma pauli_step_I temp q cr k ident :
  pauli_step temp q cr k "I" ident = ret (ident ++ [1%Z]).
Proof. reflexivity. Qed.

Lemma pauli_loop_identity (n : nat) temp q cr k ident st :
  pauli_loop temp q cr k (replicate n "I"%char) ident st
  = (Ok (ident ++ replicate n 1%Z), st).
Proof.
  revert k ident. induction n as [|n IH]; intros k ident; simpl.
  - now rewrite app_nil_r.
  - rewrite pauli_step_I, bind_ret, IH. now rewrite <- app_assoc.
Qed.

Lemma py_all_ones (n : nat) : py_all (replicate n 1%Z) = true.
Proof. induction n as [|n IH]; simpl; [reflexivity | exact IH]. Qed.

(** C4.  For a circuit with one quantum register of [n] qubits and one
    classical register, [expectation] on the all-identity Pauli string of
    length [n] returns 1 (the Python integer [1], which equals [1.0]) and
    submits nothing to the backend: the list of jobs is unchanged. *)
Theorem expectation_all_identity st (c : loc) circ q cr (n : nat) shots :
  heap st !! c = Some circ ->
  qregs circ = [q] -> cregs circ = [cr] -> reg_size q = n ->
  exists st',
    expectation backend c (str_repeat "I" n) shots st = (Ok (PyInt 1), st')
    /\ num_of (PyInt 1) = Some 1%Q
    /\ jobs st' = jobs st.
Proof.
  intros Hc Hq Hcr Hn.
  eexists. split; [|split; [reflexivity|]].
  - rewrite (expectation_checked st c circ q cr); try assumption.
    + rewrite str_strip_repeat_I. unfold measure_and_estimate, str_repeat.
      rewrite list_ascii_of_string_of_list_ascii.
      erewrite bind_ok by apply pauli_loop_identity.
      simpl. rewrite py_all_ones. reflexivity.
    + rewrite str_strip_repeat_I. unfold str_repeat.
      now rewrite length_string_of_list_ascii, length_replicate.
  - reflexivity.
Qed.

(** C6 (amended).  For a circuit with one quantum and one classical
    register, [expectation] raises the length-mismatch error whenever the
    length of the Pauli string after [upper()] and [strip()] differs from
    the number of qubits. *)
Theorem expectation_raises_length_mismatch st (c : loc) circ q cr pauli shots :
  heap st !! c = Some circ ->
  qregs circ = [q] -> cregs circ = [cr] ->
  String.length (str_strip (str_upper pauli)) <> reg_size q ->
  exists st',
    expectation backend c pauli shots st
    = (Raise (ValueError (OperatorCount (reg_size q)
                            (String.length (str_strip (str_upper pauli))))),
       st').
Proof.
  intros Hc Hq Hcr Hlen. eexists.
  now apply (expectation_length_mismatch st c circ q cr).
Qed.

(** C7.  When [weights] and [paulis] differ in length, [cost] raises the
    length-mismatch error and leaves the whole state as it was: no object
    is created, nothing is submitted to the backend. *)
Theorem cost_raises_length_mismatch (c : loc) (ws : list Q)
    (paulis : list string) st :
  length ws <> length paulis ->
  cost c ws paulis st = (Raise (ValueError WeightsPaulisLength), st).
Proof.
  intros H. unfold cost. apply Nat.eqb_neq in H. now rewrite H.
Qed.

(** What [cost] does when the lengths agree: it returns [None]. *)
Lemma cost_returns_none (c : loc) (ws : list Q) (paulis : list string) st :
  length ws = length paulis -> cost c ws paulis st = (Ok PyNone, st).
Proof. intros H. unfold cost. now rewrite H, Nat.eqb_refl. Qed.

Lemma reg_getitem_ok (r : Register) (k : nat) :
  k < reg_size r -> reg_getitem r k = ret {| bit_reg := r; bit_index := k |}.
Proof.
  intros H. unfold reg_getitem. apply Nat.ltb_lt in H. now rewrite H.
Qed.

Lemma is_pauli_cases (p : ascii) :
  is_pauli p = true ->
  p = "I"%char \/ p = "X"%char \/ p = "Y"%char \/ p = "Z"%char.
Proof.
  unfold is_pauli. rewrite !orb_true_iff, !Ascii.eqb_eq. tauto.
Qed.

Lemma pauli_step_invalid temp q cr k p ident :
  is_pauli p = false ->
  pauli_step temp q cr k p ident = raise (ValueError (InvalidPauliKey p)).
Proof.
  unfold is_pauli. rewrite !orb_false_iff. intros [[[HI HX] HY] HZ].
  unfold pauli_step. now rewrite HI, HX, HY, HZ.
Qed.

(** A step on a symbol of I, X, Y, Z whose qubit and classical bit exist:
    it returns, and only the copy (the last object of the store) changes. *)
Lemma pauli_step_valid (h : list QuantumCircuit) x js out q cr k p ident :
  is_pauli p = true -> k < reg_size q -> k < reg_size cr ->
  exists x',
    pauli_step (length h) q cr k p ident
      {| heap := h ++ [x]; jobs := js; stdout := out |}
    = (Ok (ident ++ [if Ascii.eqb p "I" then 1%Z else 0%Z]),
       {| heap := h ++ [x']; jobs := js; stdout := out |})
    /\ qregs x' = qregs x /\ cregs x' = cregs x.
Proof.
  intros Hp Hq Hcr.
  destruct (is_pauli_cases p Hp) as [-> | [-> | [-> | ->]]];
    unfold pauli_step, circ_h, circ_s, circ_measure;
    cbn [Ascii.eqb Bool.eqb];
    rewrite ?(reg_getitem_ok q k Hq), ?(reg_getitem_ok cr k Hcr);
    repeat first [ rewrite bind_ret
                 | erewrite bind_ok by apply append_at_end ];
    eexists; (split; [reflexivity | split; reflexivity]).
Qed.

Lemma pauli_loop_invalid (q cr : Register) (ps : list ascii) :
  forall k ident (h : list QuantumCircuit) x js out,
    k + length ps <= reg_size q -> k + length ps <= reg_size cr ->
    Exists (fun p => is_pauli p = false) ps ->
    exists p st',
      pauli_loop (length h) q cr k ps ident
        {| heap := h ++ [x]; jobs := js; stdout := out |}
      = (Raise (ValueError (InvalidPauliKey p)), st')
      /\ p ∈ ps /\ is_pauli p = false.
Proof.
  induction ps as [|p ps IH]; intros k ident h x js out Hq Hcr Hex.
  - inversion Hex.
  - simpl in Hq, Hcr. cbn [pauli_loop].
    destruct (is_pauli p) eqn:Hp.
    + destruct (pauli_step_valid h x js out q cr k p ident Hp)
        as (x' & Hstep & _); [lia | lia |].
      rewrite (bind_ok _ _ _ _ _ Hstep).
      inversion Hex as [? ? Hbad | ? ? Hrest]; subst; [congruence |].
      destruct (IH (S k) (ident ++ [if Ascii.eqb p "I" then 1%Z else 0%Z])
                   h x' js out) as (p' & st' & Hrun & Hin & Hbad);
        [lia | lia | assumption |].
      exists p', st'. split; [exact Hrun | split; [|exact Hbad]].
      now apply list_elem_of_further.
    + exists p, {| heap := h ++ [x]; jobs := js; stdout := out |}.
      rewrite pauli_step_invalid by assumption.
      split; [reflexivity | split; [apply list_elem_of_here | exact Hp]].
Qed.

Lemma pauli_loop_valid (q cr : Register) (ps : list ascii) :
  forall k ident (h : list QuantumCircuit) x js out,
    k + length ps <= reg_size q -> k + length ps <= reg_size cr ->
    Forall (fun p => is_pauli p = true) ps ->
    exists x',
      pauli_loop (length h) q cr k ps ident
        {| heap := h ++ [x]; jobs := js; stdout := out |}
      = (Ok (ident
             ++ map (fun p => if Ascii.eqb p "I" then 1%Z else 0%Z) ps),
         {| heap := h ++ [x']; jobs := js; stdout := out |}).
Proof.
  induction ps as [|p ps IH]; intros k ident h x js out Hq Hcr Hall.
  - exists x. simpl. now rewrite app_nil_r.
  - simpl in Hq, Hcr. cbn [pauli_loop].
    inversion Hall as [|? ? Hp Hrest]; subst.
    destruct (pauli_step_valid h x js out q cr k p ident Hp)
      as (x' & Hstep & _); [lia | lia |].
    rewrite (bind_ok _ _ _ _ _ Hstep).
    destruct (IH (S k) (ident ++ [if Ascii.eqb p "I" then 1%Z else 0%Z])
                 h x' js out) as (x'' & Hrun); [lia | lia | assumption |].
    exists x''. rewrite Hrun. cbn [map]. now rewrite <- app_assoc.
Qed.

Lemma length_list_ascii_of_string (s : string) :
  length (list_ascii_of_string s) = String.length s.
Proof. induction s as [|c s IH]; simpl; [reflexivity | now rewrite IH]. Qed.

(** C5 (amended).  For a circuit with one quantum register and one
    classical register that is at least as long, and a Pauli string whose
    form after [upper()] and [strip()] has as many symbols as there are
    qubits and holds a character outside I, X, Y, Z, [expectation] raises
    the invalid-symbol error, for such a character of the string. *)
Theorem expectation_raises_invalid_symbol st (c : loc) circ q cr pauli shots :
  heap st !! c = Some circ ->
  qregs circ = [q] -> cregs circ = [cr] ->
  reg_size q <= reg_size cr ->
  String.length (str_strip (str_upper pauli)) = reg_size q ->
  Exists (fun p => is_pauli p = false)
         (list_ascii_of_string (str_strip (str_upper pauli))) ->
  exists p st',
    expectation backend c pauli shots st
    = (Raise (ValueError (InvalidPauliKey p)), st')
    /\ p ∈ list_ascii_of_string (str_strip (str_upper pauli))
    /\ is_pauli p = false.
Proof.
  intros Hc Hq Hcr Hsize Hlen Hex.
  rewrite (expectation_checked st c circ q cr) by assumption.
  unfold measure_and_estimate.
  destruct (pauli_loop_invalid q cr
              (list_ascii_of_string (str_strip (str_upper pauli)))
              0 [] (heap st) circ (jobs st) (stdout st))
    as (p & st' & Hrun & Hin & Hbad).
  - rewrite length_list_ascii_of_string. lia.
  - rewrite length_list_ascii_of_string. lia.
  - assumption.
  - exists p, st'. rewrite (bind_raise _ _ _ _ _ Hrun). auto.
Qed.

(** *** The range of the estimate *)

Lemma sign_cases (bitstring : string) :
  sign bitstring = 1%Z \/ sign bitstring = (-1)%Z.
Proof.
  unfold sign. generalize (str_count "0" bitstring) as n.
  induction n as [|n IH].
  - left. reflexivity.
  - rewrite Nat2Z.inj_succ, Z.pow_succ_r by lia. lia.
Qed.

(** The sum that the post-processing loop computes when nothing rounds. *)
Lemma signed_sum_bound (counts : Counts) :
  Forall (fun bc => (0 <= snd bc)%Z) counts ->
  (Z.abs (fold_right Z.add 0%Z (map (fun bc => (sign (fst bc) * snd bc)%Z) counts))
   <= fold_right Z.add 0%Z (map snd counts))%Z.
Proof.
  induction 1 as [|[b n] counts Hn _ IH]; simpl in *.
  - lia.
  - destruct (sign_cases b) as [Hs | Hs]; rewrite Hs; lia.
Qed.

Lemma postprocess_step_exact (a : Z) (b : string) (n : Z) :
  (Z.abs (sign b * n) <= 2 ^ 53)%Z -> (Z.abs (a + sign b * n) <= 2 ^ 53)%Z ->
  postprocess_step (Ok (Finite (inject_Z a))) (b, n)
  = Ok (Finite (inject_Z (a + sign b * n))).
Proof.
  intros Ht Hs. unfold postprocess_step. cbn [fst snd].
  rewrite float_of_int_exact by assumption.
  now rewrite float_add_exact by assumption.
Qed.

(** As long as the counts add up to at most [2 ^ 53], every conversion and
    every addition of the loop is exact. *)
Lemma postprocess_from_exact (counts : Counts) :
  Forall (fun bc => (0 <= snd bc)%Z) counts ->
  forall a,
    (Z.abs a + fold_right Z.add 0%Z (map snd counts) <= 2 ^ 53)%Z ->
    fold_left postprocess_step counts (Ok (Finite (inject_Z a)))
    = Ok (Finite
            (inject_Z
               (a + fold_right Z.add 0
                      (map (fun bc => sign (fst bc) * snd bc) counts))%Z)).
Proof.
  induction 1 as [|[b n] counts Hn Hrest IH]; intros a Ha;
    cbn [fold_left map fold_right fst snd] in *.
  - now rewrite Z.add_0_r.
  - pose proof (signed_sum_bound counts Hrest) as Hsum.
    assert (Hterm : Z.abs (sign b * n) = n)
      by (destruct (sign_cases b) as [Hs | Hs]; rewrite Hs; lia).
    rewrite postprocess_step_exact by lia.
    rewrite IH by lia. do 3 f_equal. lia.
Qed.

Lemma postprocess_exact (shots : Z) (counts : Counts) :
  counts_ok shots counts -> (shots <= 2 ^ 53)%Z ->
  exists s,
    postprocess counts = Ok (Finite (inject_Z s)) /\ (Z.abs s <= shots)%Z.
Proof.
  intros [Hpos Hsum] Hmax. unfold postprocess.
  change (Finite 0) with (Finite (inject_Z 0)).
  rewrite (postprocess_from_exact counts Hpos 0%Z) by (simpl; lia).
  eexists. split; [reflexivity |].
  pose proof (signed_sum_bound counts Hpos). lia.
Qed.

Lemma truediv_bound (s shots : Z) :
  (0 < shots)%Z -> (shots <= 2 ^ 53)%Z -> (Z.abs s <= shots)%Z ->
  exists q, truediv (Finite (inject_Z s)) shots = Ok (PyFloat q)
            /\ (-1 <= q)%Q /\ (q <= 1)%Q.
Proof.
  intros Hpos Hmax Hs. unfold truediv.
  rewrite float_of_int_exact by lia. cbn [inject_Z Qnum].
  destruct (Z.eqb_spec shots 0) as [-> | _]; [lia |].
  destruct (round64_le_one (inject_Z s / (shots # 1))) as (q & Hq & Hb).
  - destruct shots as [|p|p]; try lia.
    unfold Qdiv, Qmult, Qinv, inject_Z; simpl. lia.
  - exists q. unfold float_div, py_float, inject_Z in *. now rewrite Hq.
Qed.

Lemma estimate_ok (counts : Counts) (shots : Z) :
  (0 < shots)%Z -> (shots <= 2 ^ 53)%Z -> counts_ok shots counts ->
  exists q, estimate counts shots = Ok (PyFloat q).
Proof.
  intros Hpos Hmax Hok. unfold estimate.
  destruct (postprocess_exact shots counts Hok Hmax) as (s & -> & Hs).
  destruct (truediv_bound s shots Hpos Hmax Hs) as (q & -> & _). eauto.
Qed.

Lemma estimate_bound (counts : Counts) (shots : Z) (v : pyval) :
  (0 < shots)%Z -> (shots <= 2 ^ 53)%Z -> counts_ok shots counts ->
  estimate counts shots = Ok v ->
  exists q, v = PyFloat q /\ (-1 <= q)%Q /\ (q <= 1)%Q.
Proof.
  intros Hpos Hmax Hok. unfold estimate.
  destruct (postprocess_exact shots counts Hok Hmax) as (s & -> & Hs).
  destruct (truediv_bound s shots Hpos Hmax Hs) as (q & -> & Hq).
  intros H. injection H as <-. eauto.
Qed.

Lemma execute_counts temp shots st counts st' :
  execute backend temp shots st = (Ok counts, st') ->
  exists n circ, backend n circ shots = Some counts.
Proof.
  unfold execute. intros H.
  apply bind_inv_ok in H as (circ & st1 & _ & H).
  destruct (backend (length (jobs st1)) circ shots) as [cs|] eqn:Hb;
    [| discriminate H].
  injection H as <- _. eauto.
Qed.

(** C9 (amended).  With a positive number of shots that is at most
    [2 ^ 53] and a backend whose counts are non-negative and add up to the
    number of shots, every value that [expectation] returns is a number of
    the interval [-1, 1]. *)
Theorem expectation_in_unit_interval st (c : loc) pauli shots v st' :
  (0 < shots)%Z -> (shots <= 2 ^ 53)%Z ->
  (forall n circ counts,
     backend n circ shots = Some counts -> counts_ok shots counts) ->
  expectation backend c pauli shots st = (Ok v, st') ->
  exists q, num_of v = Some q /\ (-1 <= q)%Q /\ (q <= 1)%Q.
Proof.
  intros Hshots Hmax Hback H. unfold expectation in H.
  apply bind_inv_ok in H as (temp & st1 & _ & H).
  apply bind_inv_ok in H as (circ & st2 & _ & H).
  destruct (negb (length (qregs circ) =? 1)); [discriminate H |].
  destruct (negb (length (cregs circ) =? 1)).
  { apply bind_inv_ok in H as (? & ? & _ & H). discriminate H. }
  apply bind_inv_ok in H as (qreg & st3 & _ & H).
  apply bind_inv_ok in H as (creg & st4 & _ & H).
  destruct (negb (String.length (str_strip (str_upper pauli))
                  =? reg_size qreg)); [discriminate H |].
  apply bind_inv_ok in H as (ident & st5 & _ & H).
  destruct (py_all ident).
  - injection H as <- _. exists 1%Q. repeat split; discriminate.
  - apply bind_inv_ok in H as (counts & st6 & Hexec & H).
    apply execute_counts in Hexec as (n & circ' & Hb).
    unfold lift in H. injection H as H _.
    destruct (estimate_bound counts shots v Hshots Hmax (Hback _ _ _ Hb) H)
      as (q & -> & Hq).
    exists q. split; [reflexivity | exact Hq].
Qed.

(** *** What [expectation] does to the store *)

Lemma preserves_ret {A} P (a : A) : preserves P (ret a).
Proof. intros st H. exact H. Qed.

Lemma preserves_raise {A} P e : preserves P (@raise A e).
Proof. intros st H. exact H. Qed.

Lemma preserves_bind {A B} P (m : M A) (k : A -> M B) :
  preserves P m -> (forall a, preserves P (k a)) -> preserves P (bind m k).
Proof.
  intros Hm Hk st H. unfold bind.
  specialize (Hm st H). destruct (m st) as [[a|e] st1]; simpl in Hm.
  - now apply Hk.
  - exact Hm.
Qed.

Lemma preserves_getitem {A} P (l : list A) i : preserves P (getitem l i).
Proof. unfold getitem. destruct (l !! i); intros st H; exact H. Qed.

Lemma preserves_reg_getitem P r i : preserves P (reg_getitem r i).
Proof. unfold reg_getitem. destruct (i <? reg_size r); intros st H; exact H. Qed.

Lemma preserves_deref P c : preserves P (deref c).
Proof. intros st H. unfold deref. destruct (heap st !! c); exact H. Qed.

Lemma preserves_lift {A} P (r : result A) : preserves P (lift r).
Proof. intros st H. exact H. Qed.

Lemma preserves_print h args : preserves (one_more h) (print args).
Proof. intros st H. exact H. Qed.

Lemma preserves_execute h temp shots :
  preserves (one_more h) (execute backend temp shots).
Proof.
  intros st H. unfold execute, bind, deref.
  destruct (heap st !! temp); exact H.
Qed.

(** Appending to the copy, the object after [h], leaves [h] in place. *)
Lemma preserves_append h i : preserves (one_more h) (append (length h) i).
Proof.
  intros [hp js out] [x Hx]. simpl in Hx. subst hp.
  rewrite append_at_end. eexists. reflexivity.
Qed.

Create HintDb frame.

Hint Resolve preserves_ret preserves_raise preserves_getitem
  preserves_reg_getitem preserves_deref preserves_lift preserves_print
  preserves_execute preserves_append : frame.

Ltac frame :=
  repeat first
    [ solve [auto with frame]
    | match goal with
      | |- preserves _ (if ?b then _ else _) => destruct b
      end
    | apply preserves_bind; [| intro] ].

Lemma preserves_pauli_step h q cr k p ident :
  preserves (one_more h) (pauli_step (length h) q cr k p ident).
Proof.
  unfold pauli_step, circ_h, circ_s, circ_measure. cbv zeta. frame.
Qed.

Lemma preserves_pauli_loop h q cr ps :
  forall k ident,
    preserves (one_more h) (pauli_loop (length h) q cr k ps ident).
Proof.
  induction ps as [|p ps IH]; intros k ident; cbn [pauli_loop].
  - apply preserves_ret.
  - apply preserves_bind; [apply preserves_pauli_step | intro; apply IH].
Qed.

Hint Resolve preserves_pauli_loop : frame.

(** In every run of [expectation], whatever it returns or raises, the
    store it leaves is the one it found, plus at most the copy. *)
Lemma expectation_store st (c : loc) pauli shots :
  exists new,
    heap (snd (expectation backend c pauli shots st)) = heap st ++ new.
Proof.
  unfold expectation.
  destruct (heap st !! c) as [circ|] eqn:Hc.
  - rewrite (bind_ok _ _ _ _ _ (circuit_copy_ok _ _ _ Hc)).
    match goal with
    | |- context [ ?m {| heap := heap st ++ [circ]; jobs := _; stdout := _ |} ] =>
        assert (Hm : preserves (one_more (heap st)) m)
    end.
    { cbv zeta. frame. }
    destruct (Hm {| heap := heap st ++ [circ]; jobs := jobs st;
                    stdout := stdout st |}) as [x Hx].
    + exists circ. reflexivity.
    + exists [x]. exact Hx.
  - rewrite (bind_raise _ _ _ _ _ (circuit_copy_fail _ _ Hc)).
    exists []. simpl. now rewrite app_nil_r.
Qed.

(** C10.  [expectation] never modifies the circuit it is given: after the
    call, whether it returned or raised, the object at the caller's
    location is the one that was there before, and so is every other
    object that existed before the call. *)
Theorem expectation_keeps_circuit st (c : loc) pauli shots :
  heap (snd (expectation backend c pauli shots st)) !! c = heap st !! c
  /\ take (length (heap st))
          (heap (snd (expectation backend c pauli shots st)))
     = heap st.
Proof.
  destruct (expectation_store st c pauli shots) as [new Hnew].
  split.
  - destruct (heap st !! c) as [circ|] eqn:Hc.
    + rewrite Hnew. now apply lookup_app_l_Some.
    + unfold expectation.
      now rewrite (bind_raise _ _ _ _ _ (circuit_copy_fail _ _ Hc)).
  - rewrite Hnew. now rewrite take_app_length.
Qed.

(** *** Valid calls return *)

Lemma execute_ok (h : list QuantumCircuit) x js out shots counts :
  backend (length js) x shots = Some counts ->
  execute backend (length h) shots
    {| heap := h ++ [x]; jobs := js; stdout := out |}
  = (Ok counts,
     {| heap := h ++ [x]; jobs := js ++ [(x, shots)]; stdout := out |}).
Proof.
  intros Hb. unfold execute, bind, deref. cbn [heap jobs stdout].
  rewrite list_lookup_middle by reflexivity. cbn [heap jobs stdout].
  now rewrite Hb.
Qed.

(** For a circuit with one quantum register and one classical register at
    least as long, a Pauli string of the right length over I, X, Y, Z, a
    positive number of shots up to [2 ^ 53] and a backend that returns
    counts for that many shots, [expectation] returns a value. *)
Lemma expectation_returns st (c : loc) circ q cr pauli shots :
  heap st !! c = Some circ ->
  qregs circ = [q] -> cregs circ = [cr] ->
  reg_size q <= reg_size cr ->
  String.length (str_strip (str_upper pauli)) = reg_size q ->
  Forall (fun p => is_pauli p = true)
         (list_ascii_of_string (str_strip (str_upper pauli))) ->
  (0 < shots)%Z -> (shots <= 2 ^ 53)%Z ->
  (forall n circ',
     exists counts,
       backend n circ' shots = Some counts /\ counts_ok shots counts) ->
  exists v st', expectation backend c pauli shots st = (Ok v, st').
Proof.
  intros Hc Hq Hcr Hsize Hlen Hall Hpos Hmax Hback.
  rewrite (expectation_checked st c circ q cr) by assumption.
  unfold measure_and_estimate.
  destruct (pauli_loop_valid q cr
              (list_ascii_of_string (str_strip (str_upper pauli)))
              0 [] (heap st) circ (jobs st) (stdout st))
    as (x' & Hrun);
    [rewrite length_list_ascii_of_string; lia
    |rewrite length_list_ascii_of_string; lia
    |assumption|].
  rewrite (bind_ok _ _ _ _ _ Hrun).
  destruct (py_all _); [eexists _, _; reflexivity |].
  destruct (Hback (length (jobs st)) x') as (counts & Hb & Hok).
  rewrite (bind_ok _ _ _ _ _ (execute_ok _ _ _ _ _ _ Hb)).
  destruct (estimate_ok counts shots Hpos Hmax Hok) as (v & Hv).
  unfold lift. rewrite Hv. eexists _, _; reflexivity.
Qed.

(** *** The ansatz and the objective functions *)

Lemma bind_alloc {B} circ (k : loc -> M B) st :
  bind (alloc circ) k st
  = k (length (heap st))
      {| heap := heap st ++ [circ]; jobs := jobs st; stdout := stdout st |}.
Proof. reflexivity. Qed.

Lemma bind_print {B} args (k : unit -> M B) st :
  bind (print args) k st
  = k tt {| heap := heap st; jobs := jobs st;
            stdout := stdout st ++ [args] |}.
Proof. reflexivity. Qed.

(** [VQE_circuit(theta)] always returns: it creates one object, the ansatz
    for [theta], and returns its location. *)
Lemma VQE_circuit_runs (theta : Q) st :
  VQE_circuit theta st
  = (Ok (length (heap st)),
     {| heap := heap st ++ [ansatz theta]; jobs := jobs st;
        stdout := stdout st |}).
Proof.
  unfold VQE_circuit, new_circuit, circ_x, circ_rx, circ_ry, circ_rz, circ_cx.
  cbv zeta. rewrite bind_alloc.
  rewrite !reg_getitem_ok by (simpl; lia).
  repeat first [ rewrite bind_ret
               | erewrite bind_ok by apply append_at_end ].
  reflexivity.
Qed.

(** X14.  The objective of the sweep prepares the ansatz for the angle it is
    called with: a call with [theta] adds one object to the store, the
    ansatz whose [rz] gate has the angle [theta], and leaves the other
    objects as they were, also when [coeffs[r]] or [cost] then raises. *)
Lemma sweep_obj_prepares_theta (paulis : list string)
    (coeffs : list (list Q)) (r : nat) (theta : Q) st :
  heap (snd (sweep_obj paulis coeffs r theta st))
  = heap st ++ [ansatz theta].
Proof.
  unfold sweep_obj. rewrite (bind_ok _ _ _ _ _ (VQE_circuit_runs theta st)).
  unfold getitem, cost.
  destruct (coeffs !! r) as [row|]; [|reflexivity].
  rewrite bind_ret. destruct (negb _); reflexivity.
Qed.

(** [def obj(theta)] prepares the ansatz for the angle 0, whatever the
    angle it is called with. *)
Lemma obj_prepares_zero (ws : list Q) (paulis : list string) (theta : Q) st :
  heap (snd (obj ws paulis theta st)) = heap st ++ [ansatz 0].
Proof.
  unfold obj. rewrite (bind_ok _ _ _ _ _ (VQE_circuit_runs 0 st)).
  unfold cost. destruct (negb _); reflexivity.
Qed.

(** *** The sweep over the bond lengths *)

Variable minimizer : list Q -> string -> strategy.
Variable H2_paulis : list string.
Variable radii : list Q.
Variable coeffs : list (list Q).

(** The objective of the sweep never returns a number: [cost] returns
    [None] or raises, and so does the lambda. *)
Lemma sweep_obj_no_number (r : nat) (theta : Q) st v st' :
  sweep_obj H2_paulis coeffs r theta st = (Ok v, st') -> num_of v = None.
Proof.
  unfold sweep_obj. intros H.
  apply bind_inv_ok in H as (circ & st1 & _ & H).
  apply bind_inv_ok in H as (row & st2 & _ & H).
  unfold cost in H. destruct (negb _); [discriminate H |].
  injection H as <- _. reflexivity.
Qed.

(** A minimizer that needs numbers raises on an objective that yields
    none, after any number of evaluations. *)
Lemma run_minimizer_raises (s : strategy) (f : Q -> M pyval) :
  needs_numbers s ->
  (forall theta st v st', f theta st = (Ok v, st') -> num_of v = None) ->
  forall st, exists e st', run_minimizer s f st = (Raise e, st').
Proof.
  intros Hs Hf. induction s as [opt | e | theta next IH]; intros st.
  - destruct Hs.
  - exists e, st. reflexivity.
  - cbn [run_minimizer]. unfold bind.
    destruct (f theta st) as [[v | e] st1] eqn:Hrun.
    + apply (IH v). apply Hs. exact (Hf _ _ _ _ Hrun).
    + exists e, st1. reflexivity.
Qed.

(** The minimizer cannot finish on an objective that yields no number. *)
Hypothesis minimizer_needs_numbers :
  needs_numbers (minimizer [0%Q] "Powell").

(** The body of the loop raises in its minimization, before anything is
    appended to [energies]. *)
Lemma sweep_body_raises (r : nat) (g : notebook) :
  r < length radii ->
  exists e g',
    sweep_body minimizer H2_paulis radii coeffs r g = (Raise e, g')
    /\ energies g' = energies g.
Proof.
  intros Hr. destruct (lookup_lt_is_Some_2 radii r Hr) as [radius Hrad].
  unfold sweep_body, cell_bind, in_session, getitem. rewrite Hrad.
  cbn [ret print fst snd nb_state energies].
  match goal with
  | |- context [ minimize _ _ _ _ ?s ] =>
      destruct (run_minimizer_raises (minimizer [0%Q] "Powell")
                  (sweep_obj H2_paulis coeffs r) minimizer_needs_numbers
                  (sweep_obj_no_number r) s) as (e & st' & Hrun)
  end.
  unfold minimize. rewrite Hrun. cbn [fst snd].
  eexists _, _. split; reflexivity.
Qed.


End Properties.

(** * Runs on sample data *)

Import Samples.

(** Every ["0"] of the bitstring flips the sign, every ["1"] keeps it. *)
Lemma sign_zero (s : string) : sign (String "0" s) = (- sign s)%Z.
Proof.
  unfold sign, str_count. simpl list_ascii_of_string.
  rewrite filter_cons_True by reflexivity. cbn [length].
  rewrite Nat2Z.inj_succ, Z.pow_succ_r by lia. lia.
Qed.

Lemma sign_one (s : string) : sign (String "1" s) = sign s.
Proof.
  unfold sign, str_count. simpl list_ascii_of_string.
  now rewrite filter_cons_False by discriminate.
Qed.

(** X13.  On a bitstring of zeros and ones, the sign that [expectation]
    gives an outcome is the parity of its ones, negated when the length of
    the bitstring is odd. *)
Lemma sign_parity_of_ones (s : string) :
  Forall (fun b => b = "0"%char \/ b = "1"%char) (list_ascii_of_string s) ->
  sign s
  = ((-1) ^ Z.of_nat (String.length s) * (-1) ^ Z.of_nat (str_count "1" s))%Z.
Proof.
  induction s as [|b s IH]; intros Hbits.
  - reflexivity.
  - simpl in Hbits. inversion Hbits as [|? ? Hb Hrest]; subst.
    specialize (IH Hrest).
    assert (Hlen : ((-1) ^ Z.of_nat (String.length (String b s))
                    = - (-1) ^ Z.of_nat (String.length s))%Z).
    { cbn [String.length]. rewrite Nat2Z.inj_succ, Z.pow_succ_r by lia. lia. }
    rewrite Hlen. destruct Hb as [-> | ->].
    + rewrite sign_zero, IH. unfold str_count. simpl list_ascii_of_string.
      rewrite filter_cons_False by discriminate. lia.
    + rewrite sign_one, IH. unfold str_count. simpl list_ascii_of_string.
      rewrite filter_cons_True by reflexivity. cbn [length].
      rewrite Nat2Z.inj_succ, Z.pow_succ_r by lia. lia.
Qed.

(** C1 (the code at the input [weights = [1.0]], [paulis = ["II"]]).  On a
    two-qubit circuit the only term has expectation 1, so the weighted sum
    is 1; the call of [cost] returns [None] and changes nothing. *)
Theorem cost_returns_none_for_identity_term :
  cost 0 [1%Q] ["II"%string] (session (blank 2))
  = (Ok PyNone, session (blank 2))
  /\ fst (expectation zeros 0 "II" default_shots (session (blank 2)))
     = Ok (PyInt 1).
Proof. split; reflexivity. Qed.

(** C2 (the code at [theta = 0.4]).  [def obj(theta)] leaves in the store the
    ansatz for the angle 0, whereas [cost(VQE_circuit(theta), ...)] is
    applied to the ansatz for 0.4; the two circuits differ in the angle of
    the [rz] gate. *)
Theorem obj_prepares_zero_at_two_fifths :
  heap (snd (obj (hd [] H2.coeffs) H2_paulis 0.4%Q empty_state)) = [ansatz 0]
  /\ heap (snd ((circ <- VQE_circuit 0.4%Q ;;
                 cost circ (hd [] H2.coeffs) H2_paulis) empty_state))
     = [ansatz 0.4%Q]
  /\ ansatz 0 <> ansatz 0.4%Q.
Proof.
  split; [|split].
  - apply (obj_prepares_zero _ _ _ empty_state).
  - rewrite (bind_ok _ _ _ _ _ (VQE_circuit_runs _ empty_state)).
    reflexivity.
  - intros H. discriminate H.
Qed.

(** C3 (the code at a three-qubit circuit without gates, the string ["ZZI"]
    and the counts [{"000": 10000}]).  The two measured bits are 0, so the
    parity over the measured bits is even and the estimate of the
    specification is 1; the code counts the ["0"] of the unmeasured third
    bit as well and returns -1. *)
Theorem expectation_counts_unmeasured_zero :
  fst (expectation zeros 0 "ZZI" default_shots (session (blank 3)))
  = Ok (PyFloat (-1))
  /\ measured_bits "ZZI" "000" = ["0"%char; "0"%char]
  /\ parity_sign "ZZI" "000" = 1%Z
  /\ sign "000" = (-1)%Z
  /\ parity_estimate "ZZI" [("000"%string, default_shots)] default_shots = 1%Q.
Proof. repeat split; vm_compute; reflexivity. Qed.

(** C5 as stated fails: on a two-qubit circuit the string ["zz"] has the
    matching length and holds characters outside I, X, Y, Z, and
    [expectation] returns a value instead of raising the invalid-symbol
    error, because the string is upper-cased first. *)
Lemma invalid_symbol_not_for_lower_case :
  ~ (forall backend st (c : loc) circ pauli shots,
       heap st !! c = Some circ ->
       String.length pauli = sum_list (map reg_size (qregs circ)) ->
       Exists (fun p => is_pauli p = false) (list_ascii_of_string pauli) ->
       exists p st',
         expectation backend c pauli shots st
         = (Raise (ValueError (InvalidPauliKey p)), st')).
Proof.
  intros H.
  destruct (H zeros (session (blank 2)) 0 (blank 2) "zz"%string default_shots)
    as (p & st' & Hrun).
  - reflexivity.
  - reflexivity.
  - apply Exists_cons_hd. reflexivity.
  - vm_compute in Hrun. discriminate Hrun.
Qed.

(** C6 as stated fails: on a two-qubit circuit the string ["ZZ "] has length
    3, and [expectation] returns a value instead of raising the
    length-mismatch error, because the string is stripped first. *)
Lemma length_mismatch_not_for_padded_string :
  ~ (forall backend st (c : loc) circ q cr pauli shots,
       heap st !! c = Some circ ->
       qregs circ = [q] -> cregs circ = [cr] ->
       String.length pauli <> reg_size q ->
       exists n m st',
         expectation backend c pauli shots st
         = (Raise (ValueError (OperatorCount n m)), st')).
Proof.
  intros H.
  destruct (H zeros (session (blank 2)) 0 (blank 2) (qreg 2) (creg 2)
              "ZZ "%string default_shots)
    as (n & m & st' & Hrun).
  - reflexivity.
  - reflexivity.
  - reflexivity.
  - simpl. lia.
  - vm_compute in Hrun. discriminate Hrun.
Qed.

(** C9 as stated fails: with [2 ^ 54 + 10] shots and the two outcomes
    ["00"] and ["11"] counted [2 ^ 53 + 3] and [2 ^ 53 + 7] times (the counts
    are non-negative and add up to the shots), the conversions to float
    round the counts up and the shots down, and [expectation] returns
    [1 + 2 ^ -52], which is above 1. *)
Lemma unit_interval_fails_beyond_two_pow_53 :
  ~ (forall backend st (c : loc) pauli shots v st',
       (0 < shots)%Z ->
       (forall n circ counts,
          backend n circ shots = Some counts -> counts_ok shots counts) ->
       expectation backend c pauli shots st = (Ok v, st') ->
       exists q, num_of v = Some q /\ (-1 <= q)%Q /\ (q <= 1)%Q).
Proof.
  intros H.
  destruct (H huge (session (blank 2)) 0 "ZZ"%string huge_shots
              (PyFloat (4503599627370497 # 4503599627370496))
              (snd (expectation huge 0 "ZZ" huge_shots (session (blank 2)))))
    as (q & Hq & _ & Hhi).
  - reflexivity.
  - intros n circ counts Hc. injection Hc as <-.
    split; [repeat constructor; discriminate | reflexivity].
  - vm_compute. reflexivity.
  - injection Hq as <-. apply Hhi. reflexivity.
Qed.

(** ** Instances of the theorems *)

Lemma expectation_all_identity_witness :
  exists st',
    expectation zeros 0 (str_repeat "I" 2) default_shots (session (blank 2))
    = (Ok (PyInt 1), st')
    /\ num_of (PyInt 1) = Some 1%Q
    /\ jobs st' = jobs (session (blank 2)).
Proof.
  apply (expectation_all_identity zeros (session (blank 2)) 0 (blank 2)
           (qreg 2) (creg 2) 2 default_shots); reflexivity.
Defined.

Lemma expectation_raises_invalid_symbol_witness :
  exists p st',
    expectation zeros 0 "XQ" default_shots (session (blank 2))
    = (Raise (ValueError (InvalidPauliKey p)), st')
    /\ p ∈ list_ascii_of_string (str_strip (str_upper "XQ"))
    /\ is_pauli p = false.
Proof.
  apply (expectation_raises_invalid_symbol zeros (session (blank 2)) 0
           (blank 2) (qreg 2) (creg 2) "XQ" default_shots).
  - reflexivity.
  - reflexivity.
  - reflexivity.
  - simpl. lia.
  - reflexivity.
  - apply Exists_cons_tl, Exists_cons_hd. reflexivity.
Defined.

Lemma expectation_raises_length_mismatch_witness :
  exists st',
    expectation zeros 0 "ZZ" default_shots (session (blank 3))
    = (Raise (ValueError (OperatorCount 3 2)), st').
Proof.
  apply (expectation_raises_length_mismatch zeros (session (blank 3)) 0
           (blank 3) (qreg 3) (creg 3) "ZZ" default_shots).
  - reflexivity.
  - reflexivity.
  - reflexivity.
  - simpl. lia.
Defined.

Lemma cost_raises_length_mismatch_witness :
  cost 0 [1%Q; 2%Q; 3%Q] ["II"%string; "ZZ"%string] (session (blank 2))
  = (Raise (ValueError WeightsPaulisLength), session (blank 2)).
Proof.
  apply (cost_raises_length_mismatch 0 [1%Q; 2%Q; 3%Q]
           ["II"%string; "ZZ"%string] (session (blank 2))).
  simpl. lia.
Defined.

Lemma zeros_counts_ok (shots : Z) (n : nat) (circ : QuantumCircuit) counts :
  zeros n circ shots = Some counts -> counts_ok shots counts.
Proof.
  unfold zeros. destruct (Z.ltb_spec 0 shots) as [Hpos | _]; [| discriminate].
  intros H. injection H as <-. split; simpl.
  - repeat constructor. simpl. lia.
  - lia.
Qed.

Lemma expectation_in_unit_interval_witness :
  exists q, num_of (PyFloat 1) = Some q /\ (-1 <= q)%Q /\ (q <= 1)%Q.
Proof.
  eapply (expectation_in_unit_interval zeros (session (blank 2)) 0 "ZZ"
            default_shots).
  - reflexivity.
  - unfold default_shots. lia.
  - intros n circ counts. apply zeros_counts_ok.
  - vm_compute. reflexivity.
Defined.


(** ** Other runs of [expectation]

    With two quantum registers the register check comes first; with a
    classical register shorter than the quantum one, indexing the classical
    register fails before the loop reaches the invalid symbol. *)

Example expectation_two_quantum_registers :
  fst (expectation zeros 0 "XQ" default_shots (session two_qregs))
  = Raise (ValueError OneQuantumRegister).
Proof. reflexivity. Qed.

Example expectation_short_classical_register :
  fst (expectation zeros 0 "IZQ" default_shots
         (session {| qregs := [qreg 3]; cregs := [creg 1]; data := [] |}))
  = Raise IndexError.
Proof. reflexivity. Qed.

(** On one qubit in the state prepared by no gate, the estimate of Z is -1. *)
Example expectation_one_qubit_Z :
  fst (expectation zeros 0 "Z" default_shots (session (blank 1)))
  = Ok (PyFloat (-1)).
Proof. vm_compute. reflexivity. Qed.

(** The reduced table has 25 bond lengths, from 0.2 to 2.6. *)
Example reduced_table_size :
  length H2.radii = 25 /\ length H2.coeffs = 25
  /\ head H2.radii = Some 0.2000%Q /\ last H2.radii = Some 2.600%Q.
Proof. repeat split. Qed.

(** * Further properties of the notebook's functions *)

Section Further.

Variable backend : nat -> QuantumCircuit -> Z -> option Counts.

(** ** The register checks of [expectation] *)

(** X1.  A circuit whose number of quantum registers is not one is rejected
    with the quantum-register error, whatever the Pauli string and the
    classical registers are: nothing is printed, nothing is submitted to the
    backend, and the store holds the copy made before the check. *)
Theorem expectation_rejects_quantum_registers st (c : loc) circ pauli shots :
  heap st !! c = Some circ ->
  length (qregs circ) <> 1 ->
  expectation backend c pauli shots st
  = (Raise (ValueError OneQuantumRegister),
     {| heap := heap st ++ [circ]; jobs := jobs st; stdout := stdout st |}).
Proof.
  intros Hc Hq. unfold expectation.
  rewrite (bind_ok _ _ _ _ _ (circuit_copy_ok _ _ _ Hc)).
  rewrite (bind_ok _ _ _ _ _ (deref_after_alloc _ _ _ _ _ _ Hc)).
  apply Nat.eqb_neq in Hq. now rewrite Hq.
Qed.

(** X2.  A circuit with one quantum register whose number of classical
    registers is not one is rejected with the classical-register error,
    after one line ["# cregs =", n] has been printed; nothing is submitted
    to the backend. *)
Theorem expectation_rejects_classical_registers st (c : loc) circ pauli shots :
  heap st !! c = Some circ ->
  length (qregs circ) = 1 ->
  length (cregs circ) <> 1 ->
  expectation backend c pauli shots st
  = (Raise (ValueError OneClassicalRegister),
     {| heap := heap st ++ [circ]; jobs := jobs st;
        stdout := stdout st
                  ++ [[PyStr "# cregs =";
                       PyInt (Z.of_nat (length (cregs circ)))]] |}).
Proof.
  intros Hc Hq Hcr. unfold expectation.
  rewrite (bind_ok _ _ _ _ _ (circuit_copy_ok _ _ _ Hc)).
  rewrite (bind_ok _ _ _ _ _ (deref_after_alloc _ _ _ _ _ _ Hc)).
  apply Nat.eqb_neq in Hcr. now rewrite Hq, Hcr.
Qed.

(** ** The circuit that is measured *)

(** One step of the loop on a symbol of I, X, Y, Z: the copy gets the
    instructions of [pauli_gates], in place. *)
Lemma pauli_step_gates (h : list QuantumCircuit) x js out q cr k p ident :
  is_pauli p = true -> k < reg_size q -> k < reg_size cr ->
  pauli_step (length h) q cr k p ident
    {| heap := h ++ [x]; jobs := js; stdout := out |}
  = (Ok (ident ++ [if Ascii.eqb p "I" then 1%Z else 0%Z]),
     {| heap := h ++ [ {| qregs := qregs x; cregs := cregs x;
                          data := data x ++ pauli_gates q cr k p |} ];
        jobs := js; stdout := out |}).
Proof.
  intros Hp Hq Hcr.
  destruct (is_pauli_cases p Hp) as [-> | [-> | [-> | ->]]];
    unfold pauli_step, pauli_gates, circ_h, circ_s, circ_measure;
    cbn [Ascii.eqb Bool.eqb];
    rewrite ?(reg_getitem_ok q k Hq), ?(reg_getitem_ok cr k Hcr);
    repeat first [ rewrite bind_ret
                 | erewrite bind_ok by apply append_at_end ];
    cbn [ret qregs cregs data]; rewrite <- ?app_assoc; cbn [app];
    rewrite ?app_nil_r; try reflexivity.
  destruct x; reflexivity.
Qed.

Lemma pauli_loop_gates (q cr : Register) (ps : list ascii) :
  forall k ident (h : list QuantumCircuit) x js out,
    k + length ps <= reg_size q -> k + length ps <= reg_size cr ->
    Forall (fun p => is_pauli p = true) ps ->
    pauli_loop (length h) q cr k ps ident
      {| heap := h ++ [x]; jobs := js; stdout := out |}
    = (Ok (ident ++ map (fun p => if Ascii.eqb p "I" then 1%Z else 0%Z) ps),
       {| heap := h ++ [ {| qregs := qregs x; cregs := cregs x;
                            data := data x ++ measurement_gates q cr k ps |} ];
          jobs := js; stdout := out |}).
Proof.
  induction ps as [|p ps IH]; intros k ident h x js out Hq Hcr Hall.
  - simpl. rewrite !app_nil_r. destruct x; reflexivity.
  - simpl in Hq, Hcr. inversion Hall as [|? ? Hp Hrest]; subst.
    cbn [pauli_loop measurement_gates map].
    assert (Hkq : k < reg_size q) by lia.
    assert (Hkc : k < reg_size cr) by lia.
    rewrite (bind_ok _ _ _ _ _
               (pauli_step_gates h x js out q cr k p ident Hp Hkq Hkc)).
    rewrite IH by (assumption || lia).
    cbn [qregs cregs data]. now rewrite <- !app_assoc.
Qed.

Lemma py_all_some_measured (ps : list ascii) :
  Exists (fun p => Ascii.eqb p "I" = false) ps ->
  py_all (map (fun p => if Ascii.eqb p "I" then 1%Z else 0%Z) ps) = false.
Proof.
  induction 1 as [p ps Hp | p ps _ IH]; simpl.
  - now rewrite Hp.
  - rewrite IH. apply andb_false_r.
Qed.

(** X3.  For a circuit with one quantum register and one classical register
    at least as long, a Pauli string over I, X, Y, Z of the right length
    (after [upper()] and [strip()]) with a symbol other than I, a positive
    number of shots and a backend that returns counts for the job:
    [expectation] submits exactly one job, the caller's circuit followed,
    for each symbol in order, by H and a measurement for X, by S, H and a
    measurement for Y, by a measurement for Z and by nothing for I (qubit
    [k] is measured into classical bit [k]); its result is the
    post-processing of the counts of that job and the division by the
    number of shots. *)
Theorem expectation_measures st (c : loc) circ q cr pauli shots counts :
  heap st !! c = Some circ ->
  qregs circ = [q] -> cregs circ = [cr] ->
  reg_size q <= reg_size cr ->
  String.length (str_strip (str_upper pauli)) = reg_size q ->
  Forall (fun p => is_pauli p = true)
         (list_ascii_of_string (str_strip (str_upper pauli))) ->
  Exists (fun p => Ascii.eqb p "I" = false)
         (list_ascii_of_string (str_strip (str_upper pauli))) ->
  (0 < shots)%Z ->
  let temp :=
    {| qregs := qregs circ; cregs := cregs circ;
       data := data circ
               ++ measurement_gates q cr 0
                    (list_ascii_of_string (str_strip (str_upper pauli))) |} in
  backend (length (jobs st)) temp shots = Some counts ->
  expectation backend c pauli shots st
  = (estimate counts shots,
     {| heap := heap st ++ [temp]; jobs := jobs st ++ [(temp, shots)];
        stdout := stdout st |}).
Proof.
  intros Hc Hq Hcr Hsize Hlen Hall Hex Hshots temp Hback.
  rewrite (expectation_checked backend st c circ q cr) by assumption.
  unfold measure_and_estimate.
  pose proof (length_list_ascii_of_string (str_strip (str_upper pauli)))
    as Hl.
  assert (Hnq : 0 + length (list_ascii_of_string (str_strip (str_upper pauli)))
                <= reg_size q) by lia.
  assert (Hnc : 0 + length (list_ascii_of_string (str_strip (str_upper pauli)))
                <= reg_size cr) by lia.
  rewrite (bind_ok _ _ _ _ _
             (pauli_loop_gates q cr _ 0 [] (heap st) circ (jobs st) (stdout st)
                Hnq Hnc Hall)).
  cbn [app]. rewrite (py_all_some_measured _ Hex).
  fold temp.
  now rewrite (bind_ok _ _ _ _ _ (execute_ok backend _ _ _ _ _ _ Hback)).
Qed.

(** ** Jobs and objects of a call *)

Lemma bind_cases {A B} (P : state -> Prop) (R : result B * state -> Prop)
    (m : M A) (k : A -> M B) st :
  P st -> preserves P m ->
  (forall e st1, P st1 -> R (Raise e, st1)) ->
  (forall a st1, P st1 -> R (k a st1)) ->
  R (bind m k st).
Proof.
  intros HP Hm Hr Hk. unfold bind. specialize (Hm st HP).
  destruct (m st) as [[a|e] st1]; simpl in Hm; auto.
Qed.

Lemma keeps_jobs_append js c i : preserves (keeps_jobs js) (append c i).
Proof. intros st H. unfold append. destruct (heap st !! c); exact H. Qed.

Lemma keeps_jobs_print js args : preserves (keeps_jobs js) (print args).
Proof. intros st H. exact H. Qed.

Lemma keeps_jobs_circuit_copy js c : preserves (keeps_jobs js) (circuit_copy c).
Proof.
  intros st H. unfold circuit_copy, bind, deref, alloc.
  destruct (heap st !! c); exact H.
Qed.

Lemma copy_of_append h circ i :
  preserves (copy_of h circ) (append (length h) i).
Proof.
  intros [hp js out] (x & Hx & Hq & Hc & Hd). simpl in Hx. subst hp.
  rewrite append_at_end. eexists. split; [reflexivity |].
  cbn [qregs cregs data]. repeat split; try assumption.
  now apply prefix_app_r.
Qed.

Lemma copy_of_print h circ args : preserves (copy_of h circ) (print args).
Proof. intros st H. exact H. Qed.

Lemma copy_of_execute h circ temp shots :
  preserves (copy_of h circ) (execute backend temp shots).
Proof.
  intros st H. unfold execute, bind, deref.
  destruct (heap st !! temp); exact H.
Qed.

Create HintDb io.

Hint Resolve preserves_ret preserves_raise preserves_getitem
  preserves_reg_getitem preserves_deref preserves_lift
  keeps_jobs_append keeps_jobs_print keeps_jobs_circuit_copy
  copy_of_append copy_of_print copy_of_execute : io.

Ltac keep :=
  repeat first
    [ solve [auto with io]
    | match goal with
      | |- preserves _ (if ?b then _ else _) => destruct b
      end
    | apply preserves_bind; [| intro] ].

Lemma keeps_jobs_pauli_loop js temp q cr ps :
  forall k ident, preserves (keeps_jobs js) (pauli_loop temp q cr k ps ident).
Proof.
  induction ps as [|p ps IH]; intros k ident; cbn [pauli_loop].
  - apply preserves_ret.
  - apply preserves_bind; [| intro; apply IH].
    unfold pauli_step, circ_h, circ_s, circ_measure. cbv zeta. keep.
Qed.

Lemma copy_of_pauli_loop h circ q cr ps :
  forall k ident,
    preserves (copy_of h circ) (pauli_loop (length h) q cr k ps ident).
Proof.
  induction ps as [|p ps IH]; intros k ident; cbn [pauli_loop].
  - apply preserves_ret.
  - apply preserves_bind; [| intro; apply IH].
    unfold pauli_step, circ_h, circ_s, circ_measure. cbv zeta. keep.
Qed.

Hint Resolve keeps_jobs_pauli_loop copy_of_pauli_loop : io.

Lemma float_of_int_error (z : Z) (e : exn) :
  float_of_int z = Raise e -> e = OverflowError.
Proof.
  unfold float_of_int. destruct (round64 (inject_Z z)); intros H;
    [discriminate H | now injection H | now injection H].
Qed.

Lemma postprocess_from_error (counts : Counts) (e : exn) :
  forall acc,
    fold_left postprocess_step counts acc = Raise e ->
    acc = Raise e \/ e = OverflowError.
Proof.
  induction counts as [|bc counts IH]; intros acc H; cbn [fold_left] in H.
  - now left.
  - destruct (IH _ H) as [Hstep | He]; [| now right].
    unfold postprocess_step in Hstep. destruct acc as [v | e']; [| now left].
    destruct (float_of_int (sign (fst bc) * snd bc)) as [t | e'] eqn:Ht;
      [discriminate Hstep |].
    injection Hstep as ->. right. exact (float_of_int_error _ _ Ht).
Qed.

(** The last lines of [expectation] raise nothing but an overflow of a
    conversion to float or the division by zero. *)
Lemma estimate_error (counts : Counts) (shots : Z) (e : exn) :
  estimate counts shots = Raise e ->
  e = OverflowError \/ e = ZeroDivisionError.
Proof.
  unfold estimate, postprocess, truediv. intros H.
  destruct (fold_left postprocess_step counts (Ok (Finite 0)))
    as [val | e'] eqn:Hp.
  - destruct (float_of_int shots) as [d | e'] eqn:Hd.
    + destruct (Qnum d =? 0)%Z; [| discriminate H].
      injection H as <-. now right.
    + injection H as ->. left. exact (float_of_int_error _ _ Hd).
  - injection H as ->.
    destruct (postprocess_from_error _ _ _ Hp) as [Habs | He];
      [discriminate Habs | now left].
Qed.

(** How a call ends, seen from the list of jobs: either the list is as it
    was, or it has one more job, for the given number of shots, and then
    the backend failed or the call ended in its last lines, on the counts
    of that job. *)
Lemma expectation_jobs st (c : loc) pauli shots :
  jobs (snd (expectation backend c pauli shots st)) = jobs st
  \/ (exists x, jobs (snd (expectation backend c pauli shots st))
                = jobs st ++ [(x, shots)])
     /\ (fst (expectation backend c pauli shots st) = Raise BackendError
         \/ exists counts,
              fst (expectation backend c pauli shots st)
              = estimate counts shots).
Proof.
  pose (R := fun rs : result pyval * state =>
               jobs (snd rs) = jobs st
               \/ (exists x, jobs (snd rs) = jobs st ++ [(x, shots)])
                  /\ (fst rs = Raise BackendError
                      \/ exists counts, fst rs = estimate counts shots)).
  assert (Hsame : forall r st1, keeps_jobs (jobs st) st1 -> R (r, st1)).
  { intros r st1 H. left. exact H. }
  change (R (expectation backend c pauli shots st)). unfold expectation.
  apply (bind_cases (keeps_jobs (jobs st))); [reflexivity | keep | auto |].
  intros temp st1 H1. cbv zeta.
  apply (bind_cases (keeps_jobs (jobs st))); [assumption | keep | auto |].
  intros circ st2 H2.
  destruct (negb (length (qregs circ) =? 1)); [now apply Hsame |].
  destruct (negb (length (cregs circ) =? 1)).
  { apply (bind_cases (keeps_jobs (jobs st))); [assumption | keep | auto |].
    intros _ st3 H3. now apply Hsame. }
  apply (bind_cases (keeps_jobs (jobs st))); [assumption | keep | auto |].
  intros qreg st3 H3.
  apply (bind_cases (keeps_jobs (jobs st))); [assumption | keep | auto |].
  intros creg st4 H4.
  destruct (negb (String.length (str_strip (str_upper pauli))
                  =? reg_size qreg)); [now apply Hsame |].
  apply (bind_cases (keeps_jobs (jobs st))); [assumption | keep | auto |].
  intros ident st5 H5.
  destruct (py_all ident); [now apply Hsame |].
  unfold execute, bind, deref, lift.
  destruct (heap st5 !! temp) as [x|]; [| now apply Hsame].
  right. unfold keeps_jobs in H5.
  destruct (backend (length (jobs st5)) x shots) as [counts|];
    simpl; rewrite H5; eauto.
Qed.

(** X4.  A call of [expectation] submits at most one job to the backend,
    with the number of shots it was given, however it ends; the jobs
    submitted before the call stay in place. *)
Theorem expectation_at_most_one_job st (c : loc) pauli shots :
  jobs (snd (expectation backend c pauli shots st)) = jobs st
  \/ exists x, jobs (snd (expectation backend c pauli shots st))
               = jobs st ++ [(x, shots)].
Proof.
  destruct (expectation_jobs st c pauli shots) as [H | [H _]]; auto.
Qed.

(** X5.  When [expectation] raises one of its own validation errors or an
    index error (any exception other than a failure of the backend, an
    overflow of a conversion to float in the last lines, or the division by
    zero of the last line), nothing has been submitted to the backend. *)
Theorem expectation_error_before_backend st (c : loc) pauli shots e st' :
  expectation backend c pauli shots st = (Raise e, st') ->
  e <> ZeroDivisionError -> e <> OverflowError -> e <> BackendError ->
  jobs st' = jobs st.
Proof.
  intros Hrun Hz Ho Hb.
  destruct (expectation_jobs st c pauli shots) as [H | [_ [H | [counts H]]]];
    rewrite Hrun in H; simpl in H.
  - exact H.
  - injection H as ->. contradiction.
  - symmetry in H. destruct (estimate_error _ _ _ H); contradiction.
Qed.

(** X6.  Every call of [expectation] on an existing circuit adds exactly
    one object to the store, also when it then raises: the copy, made
    before any check.  The copy has the registers of the caller's circuit
    and its instructions begin with the caller's. *)
Theorem expectation_allocates_one_copy st (c : loc) circ pauli shots :
  heap st !! c = Some circ ->
  exists x,
    heap (snd (expectation backend c pauli shots st)) = heap st ++ [x]
    /\ qregs x = qregs circ /\ cregs x = cregs circ
    /\ data circ `prefix_of` data x.
Proof.
  intros Hc. unfold expectation.
  rewrite (bind_ok _ _ _ _ _ (circuit_copy_ok _ _ _ Hc)).
  match goal with
  | |- context [ ?m {| heap := heap st ++ [circ]; jobs := _; stdout := _ |} ] =>
      assert (Hm : preserves (copy_of (heap st) circ) m)
  end.
  { cbv zeta. keep. }
  apply Hm. exists circ. repeat split; reflexivity.
Qed.

(** ** A classical register that is too short *)

Lemma pauli_step_index_error (h : list QuantumCircuit) x js out q cr k p ident :
  is_pauli p = true -> Ascii.eqb p "I" = false ->
  k < reg_size q -> reg_size cr <= k ->
  exists st',
    pauli_step (length h) q cr k p ident
      {| heap := h ++ [x]; jobs := js; stdout := out |}
    = (Raise IndexError, st')
    /\ jobs st' = js.
Proof.
  intros Hp HI Hq Hcr.
  assert (Hc : reg_getitem cr k = raise IndexError).
  { unfold reg_getitem. apply Nat.ltb_ge in Hcr. now rewrite Hcr. }
  destruct (is_pauli_cases p Hp) as [-> | [-> | [-> | ->]]];
    [discriminate HI | | |];
    unfold pauli_step, circ_h, circ_s, circ_measure;
    cbn [Ascii.eqb Bool.eqb];
    rewrite ?(reg_getitem_ok q k Hq), Hc;
    repeat first [ rewrite bind_ret
                 | erewrite bind_ok by apply append_at_end ];
    eexists; (split; [reflexivity | reflexivity]).
Qed.

Lemma pauli_loop_index_error (q cr : Register) (ps : list ascii) :
  forall k ident (h : list QuantumCircuit) x js out,
    k + length ps <= reg_size q ->
    Forall (fun p => is_pauli p = true) ps ->
    (exists i p, ps !! i = Some p /\ Ascii.eqb p "I" = false
                 /\ reg_size cr <= k + i) ->
    exists st',
      pauli_loop (length h) q cr k ps ident
        {| heap := h ++ [x]; jobs := js; stdout := out |}
      = (Raise IndexError, st')
      /\ jobs st' = js.
Proof.
  induction ps as [|p ps IH];
    intros k ident h x js out Hq Hall (i & p' & Hi & HI & Hcr).
  - discriminate Hi.
  - simpl in Hq. inversion Hall as [|? ? Hp Hrest]; subst.
    cbn [pauli_loop].
    destruct (Ascii.eqb p "I") eqn:HpI.
    + (* an identity symbol: the loop goes on *)
      apply Ascii.eqb_eq in HpI. subst p.
      rewrite pauli_step_I, bind_ret.
      destruct i as [|i]; simpl in Hi.
      { injection Hi as <-. discriminate HI. }
      apply IH; [lia | assumption |].
      exists i, p'. repeat split; [assumption | assumption | lia].
    + destruct (le_lt_dec (reg_size cr) k) as [Hshort | Hin].
      * (* this symbol is measured into a bit that does not exist *)
        destruct (pauli_step_index_error h x js out q cr k p ident Hp HpI)
          as (st' & Hstep & Hjobs); [lia | assumption |].
        exists st'. now rewrite (bind_raise _ _ _ _ _ Hstep).
      * assert (Hkq : k < reg_size q) by lia.
        rewrite (bind_ok _ _ _ _ _
                   (pauli_step_gates h x js out q cr k p ident Hp Hkq Hin)).
        destruct i as [|i]; simpl in Hi; [lia |].
        apply IH; [lia | assumption |].
        exists i, p'. repeat split; [assumption | assumption | lia].
Qed.

(** X7.  The length of the classical register is not validated: for a
    circuit with one quantum and one classical register and a Pauli string
    over I, X, Y, Z of the right length, if a symbol other than I stands at
    a position that the classical register does not have, [expectation]
    raises an index error, and nothing is submitted to the backend. *)
Theorem expectation_short_classical_register_fails
    st (c : loc) circ q cr pauli shots :
  heap st !! c = Some circ ->
  qregs circ = [q] -> cregs circ = [cr] ->
  String.length (str_strip (str_upper pauli)) = reg_size q ->
  Forall (fun p => is_pauli p = true)
         (list_ascii_of_string (str_strip (str_upper pauli))) ->
  (exists i p,
     list_ascii_of_string (str_strip (str_upper pauli)) !! i = Some p
     /\ Ascii.eqb p "I" = false /\ reg_size cr <= i) ->
  exists st',
    expectation backend c pauli shots st = (Raise IndexError, st')
    /\ jobs st' = jobs st.
Proof.
  intros Hc Hq Hcr Hlen Hall Hex.
  rewrite (expectation_checked backend st c circ q cr) by assumption.
  unfold measure_and_estimate.
  pose proof (length_list_ascii_of_string (str_strip (str_upper pauli))) as Hl.
  destruct (pauli_loop_index_error q cr
              (list_ascii_of_string (str_strip (str_upper pauli)))
              0 [] (heap st) circ (jobs st) (stdout st))
    as (st' & Hrun & Hjobs); [lia | assumption | assumption |].
  exists st'. now rewrite (bind_raise _ _ _ _ _ Hrun).
Qed.

(** ** The ansatz is accepted by [expectation] *)

(** X8.  The circuit made by [VQE_circuit] passes the checks of
    [expectation]: for every angle, every two-symbol Pauli string over I, X,
    Y, Z, every positive number of shots up to [2 ^ 53] and every backend
    that returns, for that many shots, non-negative counts that add up to
    the shots, building the ansatz and estimating the string on it returns
    a value. *)
Theorem expectation_of_ansatz_returns (theta : Q) pauli shots st :
  String.length (str_strip (str_upper pauli)) = 2 ->
  Forall (fun p => is_pauli p = true)
         (list_ascii_of_string (str_strip (str_upper pauli))) ->
  (0 < shots)%Z -> (shots <= 2 ^ 53)%Z ->
  (forall n circ,
     exists counts,
       backend n circ shots = Some counts /\ counts_ok shots counts) ->
  exists v st',
    (circ <- VQE_circuit theta ;; expectation backend circ pauli shots) st
    = (Ok v, st').
Proof.
  intros Hlen Hall Hpos Hmax Hback.
  rewrite (bind_ok _ _ _ _ _ (VQE_circuit_runs theta st)).
  apply (expectation_returns backend _ (length (heap st)) (ansatz theta)
           {| reg_name := "q0"; reg_size := 2 |}
           {| reg_name := "c0"; reg_size := 2 |});
    try assumption; try reflexivity.
  simpl. now rewrite list_lookup_middle.
Qed.

(** ** Case and surrounding whitespace of the Pauli string *)

Lemma upper_char_idem (c : ascii) : upper_char (upper_char c) = upper_char c.
Proof. destruct c as [[] [] [] [] [] [] [] []]; reflexivity. Qed.

Lemma is_space_upper_char (c : ascii) : is_space (upper_char c) = is_space c.
Proof. destruct c as [[] [] [] [] [] [] [] []]; reflexivity. Qed.

Lemma lstrip_map_upper (l : list ascii) :
  lstrip (map upper_char l) = map upper_char (lstrip l).
Proof.
  induction l as [|c l IH]; simpl; [reflexivity |].
  rewrite is_space_upper_char. destruct (is_space c); [exact IH | reflexivity].
Qed.

Lemma map_reverse {A B} (f : A -> B) (l : list A) :
  map f (reverse l) = reverse (map f l).
Proof.
  induction l as [|x l IH]; simpl; [reflexivity |].
  now rewrite !reverse_cons, map_app, IH.
Qed.

Lemma lstrip_no_leading_space (l : list ascii) : no_leading_space (lstrip l).
Proof.
  induction l as [|c l IH]; simpl; [discriminate |].
  destruct (is_space c) eqn:Hc; [exact IH |].
  intros c' H. injection H as <-. exact Hc.
Qed.

Lemma lstrip_id (l : list ascii) : no_leading_space l -> lstrip l = l.
Proof.
  destruct l as [|c l]; intros H; simpl; [reflexivity |].
  now rewrite (H c eq_refl).
Qed.

Lemma lstrip_keeps_end (l : list ascii) :
  no_leading_space (reverse l) -> no_leading_space (reverse (lstrip l)).
Proof.
  induction l as [|c l IH]; intros H; simpl; [exact H |].
  destruct (is_space c); [| exact H].
  apply IH. intros c' Hc'. apply H.
  rewrite reverse_cons. apply head_app_Some. now left.
Qed.

Lemma strip_idem (l : list ascii) :
  reverse (lstrip (reverse (lstrip
    (reverse (lstrip (reverse (lstrip l)))))))
  = reverse (lstrip (reverse (lstrip l))).
Proof.
  set (r := lstrip (reverse (lstrip l))).
  assert (Hr : no_leading_space r) by apply lstrip_no_leading_space.
  assert (Hrr : no_leading_space (reverse r)).
  { apply lstrip_keeps_end. rewrite reverse_involutive.
    apply lstrip_no_leading_space. }
  now rewrite (lstrip_id _ Hrr), reverse_involutive, (lstrip_id _ Hr).
Qed.

Lemma map_upper_strip (l : list ascii) :
  map upper_char (reverse (lstrip (reverse (lstrip l))))
  = reverse (lstrip (reverse (lstrip (map upper_char l)))).
Proof.
  now rewrite map_reverse, <- lstrip_map_upper, map_reverse,
    <- lstrip_map_upper.
Qed.

(** [upper()] and [strip()] applied twice give what they give once. *)
Lemma normalise_idem (s : string) :
  str_strip (str_upper (str_strip (str_upper s))) = str_strip (str_upper s).
Proof.
  unfold str_strip, str_upper.
  rewrite !list_ascii_of_string_of_list_ascii.
  rewrite map_upper_strip, map_map.
  rewrite (map_ext (fun c => upper_char (upper_char c)) upper_char
             upper_char_idem).
  now rewrite strip_idem.
Qed.

(** X9.  [expectation] reads its Pauli string up to case and surrounding
    whitespace: a call with a string and a call with that string upper-cased
    and stripped go the same way, to the same result and state. *)
Theorem expectation_normalises_pauli st (c : loc) pauli shots :
  expectation backend c (str_strip (str_upper pauli)) shots st
  = expectation backend c pauli shots st.
Proof. unfold expectation. now rewrite normalise_idem. Qed.

(** ** The post-processing of the counts *)

Lemma sum_permutation (l1 l2 : list Z) :
  l1 ≡ₚ l2 -> fold_right Z.add 0%Z l1 = fold_right Z.add 0%Z l2.
Proof.
  induction 1 as [| x l1 l2 _ IH | x y l | l1 l2 l3 _ IH1 _ IH2]; simpl.
  - reflexivity.
  - now rewrite IH.
  - lia.
  - now rewrite IH1.
Qed.

(** X10.  As long as the counts are non-negative and add up to at most
    [2 ^ 53], so that no conversion and no addition rounds, the value
    accumulated by the post-processing loop does not depend on the order
    in which the backend lists the outcomes. *)
Theorem postprocess_permutation (counts1 counts2 : Counts) :
  counts1 ≡ₚ counts2 ->
  Forall (fun bc => (0 <= snd bc)%Z) counts1 ->
  (fold_right Z.add 0%Z (map snd counts1) <= 2 ^ 53)%Z ->
  postprocess counts1 = postprocess counts2.
Proof.
  intros Hperm Hpos Hsum. unfold postprocess.
  change (Finite 0) with (Finite (inject_Z 0)).
  assert (Hpos2 : Forall (fun bc => (0 <= snd bc)%Z) counts2)
    by now rewrite <- Hperm.
  assert (Hsum2 : fold_right Z.add 0%Z (map snd counts2)
                  = fold_right Z.add 0%Z (map snd counts1)).
  { apply sum_permutation. now apply Permutation_map. }
  rewrite (postprocess_from_exact counts1 Hpos 0%Z) by (simpl; lia).
  rewrite (postprocess_from_exact counts2 Hpos2 0%Z) by (simpl; lia).
  do 3 f_equal. apply sum_permutation. now apply Permutation_map.
Qed.

End Further.

(** ** The reduction of the table *)

Lemma every_lookup {A} (step : nat) (l : list A) :
  0 < step ->
  forall skip i, H2.every step skip l !! i = l !! (skip + i * step).
Proof.
  intros Hstep. induction l as [|x l IH]; intros skip i; simpl.
  - now rewrite !lookup_nil.
  - destruct skip as [|skip].
    + destruct i as [|i]; simpl; [reflexivity |].
      rewrite IH. replace (step + i * step) with (S (step - 1 + i * step))
        by lia. reflexivity.
    + rewrite IH. reflexivity.
Qed.

(** X12.  The slice [l[start:stop:step]] that reduces the table: for a
    positive step its element of index [i] is the element of [l] of index
    [start + i * step] as long as that index is below [stop], and there is
    no element of index [i] otherwise. *)
Theorem slice_lookup {A} (start stop step : nat) (l : list A) (i : nat) :
  0 < step ->
  H2.slice start stop step l !! i
  = if start + i * step <? stop then l !! (start + i * step) else None.
Proof.
  intros Hstep. unfold H2.slice.
  rewrite (every_lookup step _ Hstep), lookup_drop, Nat.add_0_l.
  destruct (Nat.ltb_spec (start + i * step) stop) as [Hlt | Hge].
  - now apply lookup_take_lt.
  - now apply lookup_take_ge.
Qed.

(** ** Instances of the further properties *)

Lemma expectation_rejects_quantum_registers_witness :
  expectation zeros 0 "ZZ" default_shots (session two_qregs)
  = (Raise (ValueError OneQuantumRegister),
     {| heap := [two_qregs; two_qregs]; jobs := []; stdout := [] |}).
Proof.
  apply (expectation_rejects_quantum_registers zeros (session two_qregs) 0
           two_qregs "ZZ" default_shots).
  - reflexivity.
  - simpl. lia.
Defined.

Lemma expectation_rejects_classical_registers_witness :
  expectation zeros 0 "ZZ" default_shots (session two_cregs)
  = (Raise (ValueError OneClassicalRegister),
     {| heap := [two_cregs; two_cregs]; jobs := [];
        stdout := [[PyStr "# cregs ="; PyInt 2]] |}).
Proof.
  apply (expectation_rejects_classical_registers zeros (session two_cregs) 0
           two_cregs "ZZ" default_shots).
  - reflexivity.
  - reflexivity.
  - simpl. lia.
Defined.

Lemma expectation_measures_witness :
  let q0 := {| bit_reg := qreg 2; bit_index := 0 |} in
  let q1 := {| bit_reg := qreg 2; bit_index := 1 |} in
  let c0 := {| bit_reg := creg 2; bit_index := 0 |} in
  let c1 := {| bit_reg := creg 2; bit_index := 1 |} in
  let temp := {| qregs := [qreg 2]; cregs := [creg 2];
                 data := [HGate q0; Measure q0 c0;
                          SGate q1; HGate q1; Measure q1 c1] |} in
  expectation zeros 0 " xy" default_shots (session (blank 2))
  = (estimate [("00"%string, default_shots)] default_shots,
     {| heap := [blank 2; temp]; jobs := [(temp, default_shots)];
        stdout := [] |}).
Proof.
  apply (expectation_measures zeros (session (blank 2)) 0 (blank 2)
           (qreg 2) (creg 2) " xy" default_shots
           [("00"%string, default_shots)]).
  - reflexivity.
  - reflexivity.
  - reflexivity.
  - simpl. lia.
  - reflexivity.
  - repeat constructor.
  - apply Exists_cons_hd. reflexivity.
  - reflexivity.
  - reflexivity.
Defined.

Lemma expectation_error_before_backend_witness :
  jobs {| heap := [blank 2;
                   {| qregs := [qreg 2]; cregs := [creg 2];
                      data := [HGate {| bit_reg := qreg 2; bit_index := 0 |};
                               Measure {| bit_reg := qreg 2; bit_index := 0 |}
                                       {| bit_reg := creg 2; bit_index := 0 |}] |}];
          jobs := []; stdout := [] |}
  = jobs (session (blank 2)).
Proof.
  apply (expectation_error_before_backend zeros (session (blank 2)) 0 "XQ"
           default_shots (ValueError (InvalidPauliKey "Q"))).
  - reflexivity.
  - discriminate.
  - discriminate.
  - discriminate.
Defined.

Lemma expectation_allocates_one_copy_witness :
  exists x,
    heap (snd (expectation zeros 0 "ZQ" default_shots (session (blank 2))))
    = heap (session (blank 2)) ++ [x]
    /\ qregs x = qregs (blank 2) /\ cregs x = cregs (blank 2)
    /\ data (blank 2) `prefix_of` data x.
Proof.
  apply (expectation_allocates_one_copy zeros (session (blank 2)) 0 (blank 2)
           "ZQ" default_shots).
  reflexivity.
Defined.

Lemma expectation_short_classical_register_fails_witness :
  exists st',
    expectation zeros 0 "IIZ" default_shots (session short_creg)
    = (Raise IndexError, st')
    /\ jobs st' = jobs (session short_creg).
Proof.
  apply (expectation_short_classical_register_fails zeros (session short_creg)
           0 short_creg (qreg 3) (creg 2) "IIZ" default_shots).
  - reflexivity.
  - reflexivity.
  - reflexivity.
  - reflexivity.
  - repeat constructor.
  - exists 2, "Z"%char. repeat split. simpl. lia.
Defined.

Lemma expectation_of_ansatz_returns_witness :
  exists v st',
    (circ <- VQE_circuit 0.4%Q ;; expectation zeros circ "XX" default_shots)
      empty_state
    = (Ok v, st').
Proof.
  apply (expectation_of_ansatz_returns zeros 0.4%Q "XX" default_shots
           empty_state).
  - reflexivity.
  - repeat constructor.
  - reflexivity.
  - unfold default_shots. lia.
  - intros n circ. eexists. split; [reflexivity |].
    now apply (zeros_counts_ok default_shots n circ).
Defined.

Lemma postprocess_permutation_witness :
  postprocess [("00"%string, 6000%Z); ("01"%string, 4000%Z)]
  = postprocess [("01"%string, 4000%Z); ("00"%string, 6000%Z)].
Proof.
  apply (postprocess_permutation
           [("00"%string, 6000%Z); ("01"%string, 4000%Z)]
           [("01"%string, 4000%Z); ("00"%string, 6000%Z)]).
  - apply perm_swap.
  - repeat constructor; discriminate.
  - simpl. lia.
Defined.

Lemma slice_lookup_witness :
  H2.slice 0 H2.N H2.step H2.full_table !! 24
  = (if 0 + 24 * H2.step <? H2.N
     then H2.full_table !! (0 + 24 * H2.step) else None).
Proof.
  apply (slice_lookup 0 H2.N H2.step H2.full_table 24).
  unfold H2.step. lia.
Defined.

Lemma sign_parity_of_ones_witness :
  sign "0110"
  = ((-1) ^ Z.of_nat (String.length "0110")
     * (-1) ^ Z.of_nat (str_count "1" "0110"))%Z.
Proof.
  apply (sign_parity_of_ones "0110"). simpl.
  repeat (apply Forall_cons_2;
          [first [left; reflexivity | right; reflexivity] |]).
  apply Forall_nil_2.
Defined.
